(** * AutoCorrectEngine: a shallow embedding of [src/main.js]

    The development follows the engine class of the source: the SIFT3
    string distance, the BK-tree (insertion and breadth-first search), the
    dictionary bootstrap with its lifecycle events, and [getCorrections]
    with its insertion-ordered result cache.

    Conventions of the embedding.
    - A JavaScript string is a [string]: a sequence of code units, here the
      code units below 256.
    - A JavaScript [Map] iterates in insertion order and the engine relies on
      it twice (the first dictionary entry is the root of the tree, the first
      cache key is the one evicted), so a [Map] is an association list kept
      in insertion order.
    - The distance is [(s1.length + s2.length) / 2 - lcs], a half-integer; it
      is exact in binary64 for every string the runtime can hold and is a
      rational here.
    - Confidence is computed in [jsnum], the rationals extended with the two
      infinities and NaN, so that a division by zero is what it is in the
      source; rounding of the finite results is not modelled.
    - The runtime's [Math.log1p] is a variable of the section that holds the
      ranking code. *)

From Equations Require Import Equations.
From Stdlib Require Import List Arith Lia Bool ZArith NArith QArith Lqa Sorted.
From Stdlib Require Import Permutation.
From Stdlib Require Import String Ascii.
Import ListNotations.

Local Open Scope string_scope.
Local Open Scope list_scope.
Local Open Scope nat_scope.

(** ** Strings *)

(** [s.charAt(n)]: the one-character string at index [n], the empty string
    when [n] is out of range. *)
Definition charAt (s : string) (n : nat) : string := substring n 1 s.

(** Truthiness of a string value: only the empty string is falsy. *)
Definition truthy (s : string) : bool :=
  match s with EmptyString => false | String _ _ => true end.

(** ** DistanceMetric: [_sift3Distance] *)

(** The inner [for (let i = 0; i < maxOffset; i++)] of the source, entered
    with both offsets reset to 0; [n] counts the iterations left.  The result
    is the pair [(offset1, offset2)] at the [break] or at loop exit. *)
Fixpoint realign (s1 s2 : string) (c i n : nat) : nat * nat :=
  match n with
  | 0 => (0, 0)
  | S n' =>
      if (c + i <? length s1) && (charAt s1 (c + i) =? charAt s2 c)%string
      then (i, 0)
      else if (c + i <? length s2) && (charAt s1 c =? charAt s2 (c + i))%string
      then (0, i)
      else realign s1 s2 c (S i) n'
  end.

(** The [while] loop of the source; the value is [lcs] at loop exit. *)
Equations? sift3_loop (maxOffset : nat) (s1 s2 : string)
    (c offset1 offset2 lcs : nat) : nat by wf (length s1 - c) lt :=
  sift3_loop maxOffset s1 s2 c offset1 offset2 lcs
    with lt_dec (c + offset1) (length s1) => {
    | right _ := lcs
    | left _ :=
        if c + offset2 <? length s2 then
          if (charAt s1 (c + offset1) =? charAt s2 (c + offset2))%string
          then sift3_loop maxOffset s1 s2 (S c) offset1 offset2 (S lcs)
          else
            sift3_loop maxOffset s1 s2 (S c)
              (fst (realign s1 s2 c 0 maxOffset))
              (snd (realign s1 s2 c 0 maxOffset)) lcs
        else lcs }.
Proof. all: lia. Qed.

Definition sift3 (maxOffset : nat) (s1 s2 : string) : Q :=
  if negb (truthy s1) || (length s1 =? 0) then
    if truthy s2 then inject_Z (Z.of_nat (length s2)) else 0%Q
  else if negb (truthy s2) || (length s2 =? 0) then
    inject_Z (Z.of_nat (length s1))
  else
    (inject_Z (Z.of_nat (length s1 + length s2)) / 2
     - inject_Z (Z.of_nat (sift3_loop maxOffset s1 s2 0 0 0 0)))%Q.

(** The engine always calls the metric with the default [maxOffset = 5]. *)
Definition _sift3Distance (s1 s2 : string) : Q := sift3 5 s1 s2.

(** ** Insertion-ordered maps

    A JavaScript [Map] as an association list in insertion order; [eqb] is
    the key equality ([SameValueZero]: string equality for string keys,
    numeric equality for number keys). *)
Section OrderedMap.
Context {K V : Type} (eqb : K -> K -> bool).

Fixpoint map_get (k : K) (m : list (K * V)) : option V :=
  match m with
  | [] => None
  | (k', v) :: m' => if eqb k' k then Some v else map_get k m'
  end.

Definition map_has (k : K) (m : list (K * V)) : bool :=
  match map_get k m with Some _ => true | None => false end.

(** [m.set(k, v)]: an existing key keeps its place, a new key goes last. *)
Fixpoint map_set (k : K) (v : V) (m : list (K * V)) : list (K * V) :=
  match m with
  | [] => [(k, v)]
  | (k', v') :: m' =>
      if eqb k' k then (k', v) :: m' else (k', v') :: map_set k v m'
  end.

Fixpoint map_delete (k : K) (m : list (K * V)) : list (K * V) :=
  match m with
  | [] => []
  | (k', v') :: m' =>
      if eqb k' k then m' else (k', v') :: map_delete k m'
  end.

(** [m.keys().next().value]: [None] stands for [undefined]. *)
Definition map_first_key (m : list (K * V)) : option K :=
  match m with [] => None | (k, _) :: _ => Some k end.

Definition map_keys (m : list (K * V)) : list K := map fst m.
End OrderedMap.

Definition inspect {A : Type} (a : A) : {b : A | a = b} := exist _ a eq_refl.

(** ** MatchIndex: the BK-tree *)

#[local] Set Warnings "-register-all".

Inductive BKNode : Type :=
  mkBKNode { word : string; frequency : Q; children : list (Q * BKNode) }.

(** [new BKNode(word, frequency)]. *)
Definition new_BKNode (w : string) (f : Q) : BKNode := mkBKNode w f [].

Fixpoint node_count (n : BKNode) : nat :=
  match n with
  | mkBKNode _ _ ch =>
      S ((fix sum (l : list (Q * BKNode)) : nat :=
            match l with
            | [] => 0
            | (_, c) :: l' => node_count c + sum l'
            end) ch)
  end.

Definition children_count (ch : list (Q * BKNode)) : nat :=
  list_sum (map (fun kc => node_count (snd kc)) ch).

Lemma node_count_eq n : node_count n = S (children_count (children n)).
Proof.
  destruct n as [w f ch]; simpl. f_equal. unfold children_count.
  induction ch as [|[k c] ch IH]; simpl; [reflexivity|]. now rewrite IH.
Qed.

Lemma map_get_count (d : Q) (ch : list (Q * BKNode)) (c : BKNode) :
  map_get Qeq_bool d ch = Some c -> node_count c <= children_count ch.
Proof.
  unfold children_count.
  induction ch as [|[k c'] ch IH]; simpl; [discriminate|].
  destruct (Qeq_bool k d).
  - intros [= ->]. lia.
  - intros H. specialize (IH H). lia.
Qed.

(** [_insertIntoBKTree(node, newNode)].  The source mutates [node] in place;
    here the updated node is returned. *)
Equations? _insertIntoBKTree (node newNode : BKNode) : BKNode
    by wf (node_count node) lt :=
  _insertIntoBKTree node newNode
    with Qeq_bool (_sift3Distance (word node) (word newNode)) 0 => {
    | true := node
    | false
        with inspect (map_get Qeq_bool
                        (_sift3Distance (word node) (word newNode))
                        (children node)) => {
        | exist _ (Some childNode) _ :=
            mkBKNode (word node) (frequency node)
              (map_set Qeq_bool (_sift3Distance (word node) (word newNode))
                 (_insertIntoBKTree childNode newNode) (children node))
        | exist _ None _ :=
            mkBKNode (word node) (frequency node)
              (map_set Qeq_bool (_sift3Distance (word node) (word newNode))
                 newNode (children node)) } }.
Proof.
  rewrite (node_count_eq node).
  match goal with H : map_get _ _ _ = Some _ |- _ =>
    apply map_get_count in H end.
  lia.
Qed.

(** A candidate produced by the search: [{ word, distance, frequency }]. *)
Record Candidate : Type :=
  mkCandidate { cand_word : string; cand_distance : Q; cand_frequency : Q }.

Definition queue_count (q : list BKNode) : nat := list_sum (map node_count q).

(** The children that the search enqueues: those whose branch key lies
    between [searchMin] and [searchMax], in the order of the map. *)
Definition in_range (searchMin searchMax : Q) (kc : Q * BKNode) : bool :=
  Qle_bool searchMin (fst kc) && Qle_bool (fst kc) searchMax.

Lemma filter_children_count f (ch : list (Q * BKNode)) :
  queue_count (map snd (filter f ch)) <= children_count ch.
Proof.
  unfold queue_count, children_count.
  induction ch as [|[k c] ch IH]; simpl; [lia|].
  destruct (f (k, c)); simpl; lia.
Qed.

Lemma queue_count_app q1 q2 :
  queue_count (q1 ++ q2) = queue_count q1 + queue_count q2.
Proof. unfold queue_count. now rewrite map_app, list_sum_app. Qed.

(** The [while (candidates.length > 0)] loop of [_searchBKTree]:
    [candidates.shift()] takes the head, [candidates.push] appends. *)
Equations? search_loop (queryWord : string) (maxDistance : Q)
    (candidates : list BKNode) (results : list Candidate) : list Candidate
    by wf (queue_count candidates) lt :=
  search_loop queryWord maxDistance [] results := results;
  search_loop queryWord maxDistance (node :: rest) results :=
    search_loop queryWord maxDistance
      (rest ++
       map snd
         (filter
            (in_range
               (_sift3Distance (word node) queryWord - maxDistance)
               (_sift3Distance (word node) queryWord + maxDistance))
            (children node)))
      (if Qle_bool (_sift3Distance (word node) queryWord) maxDistance
       then results ++
            [mkCandidate (word node) (_sift3Distance (word node) queryWord)
               (frequency node)]
       else results).
Proof.
  rewrite queue_count_app. unfold queue_count at 3. simpl.
  rewrite (node_count_eq node).
  pose proof (filter_children_count
    (in_range (_sift3Distance (word node) queryWord - maxDistance)
              (_sift3Distance (word node) queryWord + maxDistance))
    (children node)).
  fold (queue_count rest). lia.
Qed.

(** [_searchBKTree(queryWord, maxDistance)] on the engine's tree, [None]
    being the [null] tree of an engine whose dictionary is empty. *)
Definition _searchBKTree (bkTree : option BKNode) (queryWord : string)
    (maxDistance : Q) : list Candidate :=
  match bkTree with
  | None => []
  | Some root => search_loop queryWord maxDistance [root] []
  end.

(** ** Dictionary *)

(** [String.prototype.toLowerCase] on the code units below 256: the ASCII
    capitals and the Latin-1 capitals U+00C0..U+00DE (U+00D7 is the
    multiplication sign) move up by 32. *)
Definition lower_char (a : ascii) : ascii :=
  let n := nat_of_ascii a in
  if ((65 <=? n) && (n <=? 90))
     || ((192 <=? n) && (n <=? 222) && negb (n =? 215))
  then ascii_of_nat (n + 32)
  else a.

Fixpoint toLowerCase (s : string) : string :=
  match s with
  | EmptyString => EmptyString
  | String a s' => String (lower_char a) (toLowerCase s')
  end.

Definition is_a_z (a : ascii) : bool :=
  (97 <=? nat_of_ascii a) && (nat_of_ascii a <=? 122).

Fixpoint all_a_z (s : string) : bool :=
  match s with
  | EmptyString => true
  | String a s' => is_a_z a && all_a_z s'
  end.

(** [/^[a-z]+$/.test(word)]. *)
Definition test_a_z (w : string) : bool := truthy w && all_a_z w.

(** What [words.getMostPopular(n)] can do: return a list of words, or throw
    an error with a message. *)
Inductive SourceOutcome : Type :=
| Returned (popularWords : list string)
| Threw (message : string).

Definition technicalTerms : list string :=
  [ "javascript"; "algorithm"; "function"; "variable"; "console"; "terminal";
    "autocorrect"; "suggestion"; "correction"; "dictionary"; "search"; "fuzzy";
    "distance"; "cache"; "performance"; "optimization"; "implementation";
    "architecture"; "efficient"; "structure"; "application"; "system";
    "interface"; "experience"; "machine"; "learning"; "programming";
    "development"; "software"; "computer"; "debugging"; "testing"; "hello" ].

Definition Dictionary : Type := list (string * Q).

(** [popularWords.forEach((word, index) => ...)], from [index] on. *)
Fixpoint ingest (maxFrequency : Q) (popularWords : list string) (index : nat)
    (dictionary : Dictionary) : Dictionary :=
  match popularWords with
  | [] => dictionary
  | w :: ws =>
      ingest maxFrequency ws (S index)
        (if (1 <? length w) && test_a_z w
         then map_set String.eqb w
                (maxFrequency - inject_Z (Z.of_nat index))%Q dictionary
         else dictionary)
  end.

(** [technicalTerms.forEach(term => dictionary.set(term, maxFrequency * 1.2))]. *)
Definition boost (maxFrequency : Q) (terms : list string)
    (dictionary : Dictionary) : Dictionary :=
  fold_left
    (fun d term => map_set String.eqb term (maxFrequency * (12 # 10))%Q d)
    terms dictionary.

(** ** Suggestions and JavaScript numbers *)

(** A JavaScript number as far as the ranking needs it.  Zero is [+0]: the
    divisors of the ranking are a count, a length and the logarithm of a
    count. *)
Inductive jsnum : Type :=
| Fin (q : Q)
| PInf
| NInf
| NaN.

Definition js_neg (a : jsnum) : jsnum :=
  match a with
  | Fin q => Fin (- q)
  | PInf => NInf
  | NInf => PInf
  | NaN => NaN
  end.

Definition js_add (a b : jsnum) : jsnum :=
  match a, b with
  | NaN, _ | _, NaN => NaN
  | Fin x, Fin y => Fin (x + y)
  | PInf, NInf | NInf, PInf => NaN
  | PInf, _ | _, PInf => PInf
  | NInf, _ | _, NInf => NInf
  end.

Definition js_sub (a b : jsnum) : jsnum := js_add a (js_neg b).

(** The sign of a rational: [Gt] positive, [Eq] zero, [Lt] negative. *)
Definition Qsign (q : Q) : comparison := (q ?= 0)%Q.

Definition inf_of_sign (c : comparison) : jsnum :=
  match c with Gt => PInf | Lt => NInf | Eq => NaN end.

Definition js_mul (a b : jsnum) : jsnum :=
  match a, b with
  | NaN, _ | _, NaN => NaN
  | Fin x, Fin y => Fin (x * y)
  | Fin x, PInf | PInf, Fin x => inf_of_sign (Qsign x)
  | Fin x, NInf | NInf, Fin x => inf_of_sign (CompOpp (Qsign x))
  | PInf, PInf | NInf, NInf => PInf
  | PInf, NInf | NInf, PInf => NInf
  end.

Definition js_div (a b : jsnum) : jsnum :=
  match a, b with
  | NaN, _ | _, NaN => NaN
  | Fin x, Fin y =>
      if Qeq_bool y 0 then inf_of_sign (Qsign x) else Fin (x / y)
  | Fin _, PInf | Fin _, NInf => Fin 0
  | PInf, Fin y => if Qle_bool 0 y then PInf else NInf
  | NInf, Fin y => if Qle_bool 0 y then NInf else PInf
  | PInf, _ | NInf, _ => NaN
  end.

(** [a < b] on numbers; every comparison with NaN is false. *)
Definition js_lt (a b : jsnum) : bool :=
  match a, b with
  | NaN, _ | _, NaN => false
  | Fin x, Fin y => negb (Qle_bool y x)
  | NInf, NInf | PInf, _ | _, NInf => false
  | NInf, _ | _, PInf => true
  end.

(** [a >= b] on numbers; false as soon as one of them is NaN. *)
Definition js_ge (a b : jsnum) : bool :=
  match a, b with
  | NaN, _ | _, NaN => false
  | Fin x, Fin y => Qle_bool y x
  | PInf, _ | _, NInf => true
  | NInf, _ | _, PInf => false
  end.

(** A suggestion record.  The exact-match record of the source is
    [{ word, distance, confidence }]; a ranked record is a candidate spread
    into a new object with its confidence, so it has a [frequency] too. *)
Record Suggestion : Type :=
  mkSuggestion {
    sug_word : string;
    sug_distance : Q;
    sug_frequency : option Q;
    sug_confidence : jsnum }.

(** ** The engine *)

(** The options object given to the constructor; an absent field is [None]. *)
Record Options : Type :=
  mkOptions {
    opt_dictionarySize : option N;
    opt_maxEditDistance : option Q;
    opt_cacheSize : option nat }.

Record Config : Type :=
  mkConfig { dictionarySize : N; maxEditDistance : Q; cacheSize : nat }.

(** [{ dictionarySize: 10000, maxEditDistance: 2, cacheSize: 1000, ...options }]. *)
Definition mk_config (options : Options) : Config :=
  mkConfig
    (match opt_dictionarySize options with Some n => n | None => 10000%N end)
    (match opt_maxEditDistance options with Some d => d | None => 2%Q end)
    (match opt_cacheSize options with Some n => n | None => 1000 end).

(** The lifecycle signals, with their payload. *)
Inductive Event : Type :=
| dictionary_loaded (wordCount : nat)
| bk_tree_built (nodeCount : nat).

Definition Cache : Type := list (string * list Suggestion).

(** The fields of the engine, with the signals emitted so far and the lines
    written to [console.error]. *)
Record AutoCorrectEngine : Type :=
  mkEngine {
    config : Config;
    dictionary : Dictionary;
    maxFrequency : Q;
    bkTree : option BKNode;
    cache : Cache;
    emitted : list Event;
    console_error : list string }.

Definition emit (ev : Event) (e : AutoCorrectEngine) : AutoCorrectEngine :=
  mkEngine (config e) (dictionary e) (maxFrequency e) (bkTree e) (cache e)
    (emitted e ++ [ev]) (console_error e).

(** [loadDictionary()], given what the word source does when it is called
    with [dictionarySize]. *)
Definition loadDictionary (getMostPopular : N -> SourceOutcome)
    (e : AutoCorrectEngine) : AutoCorrectEngine :=
  match getMostPopular (dictionarySize (config e)) with
  | Returned popularWords =>
      let maxFrequency := inject_Z (Z.of_nat (List.length popularWords)) in
      let dictionary :=
        boost maxFrequency technicalTerms
          (ingest maxFrequency popularWords 0 (dictionary e)) in
      emit (dictionary_loaded (List.length dictionary))
        (mkEngine (config e) dictionary maxFrequency (bkTree e) (cache e)
           (emitted e) (console_error e))
  | Threw message =>
      mkEngine (config e) (dictionary e) (maxFrequency e) (bkTree e) (cache e)
        (emitted e) (console_error e ++ [message])
  end.

(** The body of the loop of [buildBKTree]:
    [_insertIntoBKTree(this.bkTree, new BKNode(word, frequency))]. *)
Definition build_step (bkTree : BKNode) (wf : string * Q) : BKNode :=
  _insertIntoBKTree bkTree (new_BKNode (fst wf) (snd wf)).

(** [buildBKTree()]. *)
Definition buildBKTree (e : AutoCorrectEngine) : AutoCorrectEngine :=
  match dictionary e with
  | [] => e
  | (firstWord, firstFreq) :: it =>
      emit (bk_tree_built (List.length (dictionary e)))
        (mkEngine (config e) (dictionary e) (maxFrequency e)
           (Some (fold_left build_step it (new_BKNode firstWord firstFreq)))
           (cache e) (emitted e) (console_error e))
  end.

Definition _initialize (getMostPopular : N -> SourceOutcome)
    (e : AutoCorrectEngine) : AutoCorrectEngine :=
  buildBKTree (loadDictionary getMostPopular e).

(** [new AutoCorrectEngine(options)]. *)
Definition new_AutoCorrectEngine (options : Options)
    (getMostPopular : N -> SourceOutcome) : AutoCorrectEngine :=
  _initialize getMostPopular
    (mkEngine (mk_config options) [] 0%Q None [] [] []).

(** ** Ranking and [getCorrections] *)

(** [Array.prototype.sort(compare)]: a stable sort; [compare(a, b) > 0] puts
    [b] first, any other value (negative, zero, NaN) leaves [a] first.  When
    [compare] orders the elements consistently every stable sort returns the
    same array; the insertion sort below is one. *)
Section Sort.
Context {A : Type} (compare : A -> A -> jsnum).

Fixpoint sort_insert (a : A) (sorted : list A) : list A :=
  match sorted with
  | [] => [a]
  | b :: rest =>
      if js_lt (Fin 0) (compare a b) then b :: sort_insert a rest
      else a :: b :: rest
  end.

Definition js_sort (l : list A) : list A := fold_right sort_insert [] l.
End Sort.

(** [(a, b) => b.confidence - a.confidence]. *)
Definition by_confidence (a b : Suggestion) : jsnum :=
  js_sub (sug_confidence b) (sug_confidence a).

(** The eviction of a miss: when the cache is at capacity its first key is
    deleted; [delete(undefined)] on an empty cache does nothing. *)
Definition evict_oldest (cacheSize : nat) (cache : Cache) : Cache :=
  if cacheSize <=? List.length cache then
    match map_first_key cache with
    | Some oldestKey => map_delete String.eqb oldestKey cache
    | None => cache
    end
  else cache.

(** The cache update of a miss: the eviction, then
    [cache.set(lowerCaseWord, rankedResults)]. *)
Definition cache_store (cacheSize : nat) (key : string)
    (value : list Suggestion) (cache : Cache) : Cache :=
  map_set String.eqb key value (evict_oldest cacheSize cache).

Section Ranking.
(** [Math.log1p] on the arguments the engine gives it: scores and counts,
    never negative, where its value is finite. *)
Variable log1p : Q -> Q.

Definition rank (maxFrequency : Q) (lowerCaseWord : string)
    (candidate : Candidate) : Suggestion :=
  let freqScore :=
    js_div (Fin (log1p (cand_frequency candidate)))
           (Fin (log1p maxFrequency)) in
  let distScore :=
    js_sub (Fin 1)
      (js_div (Fin (cand_distance candidate))
         (Fin (inject_Z (Z.of_nat
            (Nat.max (length lowerCaseWord)
                     (length (cand_word candidate))))))) in
  let confidence :=
    js_add (js_mul (Fin (7 # 10)) freqScore)
           (js_mul (Fin (3 # 10)) distScore) in
  mkSuggestion (cand_word candidate) (cand_distance candidate)
    (Some (cand_frequency candidate)) confidence.

Definition rankedResults (e : AutoCorrectEngine) (lowerCaseWord : string)
    : list Suggestion :=
  firstn 5
    (js_sort by_confidence
       (map (rank (maxFrequency e) lowerCaseWord)
          (_searchBKTree (bkTree e) lowerCaseWord
             (maxEditDistance (config e))))).

(** [getCorrections(word)]: the returned array and the engine after the
    call.  [cache.has(k)] followed by [cache.get(k)] is one lookup. *)
Definition getCorrections (word : string) (e : AutoCorrectEngine)
    : list Suggestion * AutoCorrectEngine :=
  let lowerCaseWord := toLowerCase word in
  match map_get String.eqb lowerCaseWord (cache e) with
  | Some cached => (cached, e)
  | None =>
      if map_has String.eqb lowerCaseWord (dictionary e) then
        ([mkSuggestion word 0 None (Fin 1)], e)
      else
        let ranked := rankedResults e lowerCaseWord in
        (ranked,
         mkEngine (config e) (dictionary e) (maxFrequency e) (bkTree e)
           (cache_store (cacheSize (config e)) lowerCaseWord ranked
              (cache e))
           (emitted e) (console_error e))
  end.

(** The engine after a sequence of queries. *)
Definition run (e : AutoCorrectEngine) (queries : list string)
    : AutoCorrectEngine :=
  fold_left (fun e word => snd (getCorrections word e)) queries e.
End Ranking.

(** ** Vocabulary of the statements *)

(** The nodes that [_insertIntoBKTree(root, newNode)] visits: the root, and
    from a visited node at a distance other than 0 the child stored under
    that distance. *)
Inductive visited (newNode root : BKNode) : BKNode -> Prop :=
| visited_root : visited newNode root root
| visited_child (node childNode : BKNode) :
    visited newNode root node ->
    ~ (_sift3Distance (word node) (word newNode) == 0)%Q ->
    map_get Qeq_bool (_sift3Distance (word node) (word newNode))
      (children node) = Some childNode ->
    visited newNode root childNode.

(** The nodes that the search takes from its queue when it starts from
    [root]: the root, and every child of such a node whose branch key is
    within [maxDistance] of the node's distance to the query. *)
Inductive dequeued (queryWord : string) (maxDistance : Q) (root : BKNode)
    : BKNode -> Prop :=
| dequeued_root : dequeued queryWord maxDistance root root
| dequeued_child (node childNode : BKNode) (dist : Q) :
    dequeued queryWord maxDistance root node ->
    In (dist, childNode) (children node) ->
    (_sift3Distance (word node) queryWord - maxDistance <= dist)%Q ->
    (dist <= _sift3Distance (word node) queryWord + maxDistance)%Q ->
    dequeued queryWord maxDistance root childNode.

(** The record that the search pushes for a node. *)
Definition candidate_of (queryWord : string) (node : BKNode) : Candidate :=
  mkCandidate (word node) (_sift3Distance (word node) queryWord)
    (frequency node).

(** The entries of a tree, the root first: each node's word with its
    frequency. *)
Fixpoint tree_entries (n : BKNode) : list (string * Q) :=
  match n with
  | mkBKNode w f ch =>
      (w, f) :: (fix entries (l : list (Q * BKNode)) : list (string * Q) :=
                   match l with
                   | [] => []
                   | (_, c) :: l' => tree_entries c ++ entries l'
                   end) ch
  end.

Definition children_entries (ch : list (Q * BKNode)) : list (string * Q) :=
  flat_map (fun kc => tree_entries (snd kc)) ch.

Definition tree_words (n : BKNode) : list string := map fst (tree_entries n).

(** The dictionary that a normal return of the word source leads to. *)
Definition loaded_dictionary (popularWords : list string) : Dictionary :=
  boost (inject_Z (Z.of_nat (List.length popularWords))) technicalTerms
    (ingest (inject_Z (Z.of_nat (List.length popularWords))) popularWords 0
       []).

(** What construction establishes about the dictionary and the tree: the
    keys are distinct and match [/^[a-z]+$/]; either the word source gave at
    least one word or every score is 0; the tree holds dictionary entries. *)
Record index_ok (e : AutoCorrectEngine) : Prop :=
  mk_index_ok {
    keys_NoDup : NoDup (map_keys (dictionary e));
    keys_a_z : Forall (fun wf => test_a_z (fst wf) = true) (dictionary e);
    scores_ok :
      (0 < maxFrequency e)%Q \/
      ((maxFrequency e == 0)%Q /\
       Forall (fun wf => (snd wf == 0)%Q) (dictionary e));
    tree_in_dictionary :
      forall root, bkTree e = Some root ->
                   incl (tree_entries root) (dictionary e) }.

(** No later suggestion has a greater confidence than an earlier one. *)
Definition no_increase (a b : Suggestion) : Prop :=
  js_lt (sug_confidence a) (sug_confidence b) = false.

Definition non_increasing (l : list Suggestion) : Prop :=
  StronglySorted no_increase l.

(** A suggestion whose confidence is a finite number. *)
Definition finite (r : Suggestion) : Prop :=
  exists q, sug_confidence r = Fin q.

(** What every call keeps true of the cache: no key is a dictionary word,
    and every cached array has at most five records, each a ranked candidate
    whose word is a dictionary word. *)
Record cache_ok (e : AutoCorrectEngine) : Prop :=
  mk_cache_ok {
    cache_keys :
      forall k v, In (k, v) (cache e) ->
                  map_has String.eqb k (dictionary e) = false;
    cache_values :
      forall k v, In (k, v) (cache e) ->
                  List.length v <= 5 /\
                  forall r, In r v ->
                            In (sug_word r) (map_keys (dictionary e)) /\
                            sug_frequency r <> None }.

(** Every cached array is in order of confidence. *)
Definition cache_sorted (e : AutoCorrectEngine) : Prop :=
  forall k v, In (k, v) (cache e) -> non_increasing v.

(** The confidence of an earlier suggestion is greater than or equal to
    that of a later one, [a.confidence >= b.confidence]: an order that a
    NaN confidence breaks. *)
Definition at_least (a b : Suggestion) : Prop :=
  js_ge (sug_confidence a) (sug_confidence b) = true.

Definition descending (l : list Suggestion) : Prop :=
  StronglySorted at_least l.



(** The two scores that [rank] blends into the confidence. *)
Definition freqScore (log1p : Q -> Q) (maxFrequency : Q)
    (candidate : Candidate) : jsnum :=
  js_div (Fin (log1p (cand_frequency candidate))) (Fin (log1p maxFrequency)).

Definition distScore (lowerCaseWord : string) (candidate : Candidate)
    : jsnum :=
  js_sub (Fin 1)
    (js_div (Fin (cand_distance candidate))
       (Fin (inject_Z (Z.of_nat
          (Nat.max (length lowerCaseWord)
                   (length (cand_word candidate))))))).

(** ** Sample data

    A small word source, a function that meets what the ranking needs of
    the logarithm, and a small tree; the statements below are instantiated
    on them. *)

(** The first [n] of eight ranked words; three of them fail the filter of
    [loadDictionary]. *)
Definition sample_source (n : N) : SourceOutcome :=
  Returned
    (firstn (N.to_nat n)
       ["the"; "of"; "hello"; "help"; "Hello"; "x"; "held"; "shell"]).

Definition failing_source (n : N) : SourceOutcome :=
  Threw "word source unavailable".

(** [2x / (2 + x)], the first Pade approximant of [log(1 + x)]. *)
Definition log1p_approx (x : Q) : Q := (2 * x / (2 + x))%Q.

Definition default_options : Options := mkOptions None None None.

(** [{ dictionarySize: 0 }]: the word source is asked for no word. *)
Definition no_words_options : Options := mkOptions (Some 0%N) None None.

Definition sample_tree : BKNode :=
  fold_left build_step [("help", 2%Q); ("hello", 5%Q); ("shell", 1%Q)]
    (new_BKNode "hell" 3).

(** ** Vocabulary of the further statements *)

(** A list of strings without repetition, as a test. *)
Fixpoint no_repetition (l : list string) : bool :=
  match l with
  | [] => true
  | x :: l' => negb (existsb (String.eqb x) l') && no_repetition l'
  end.

(** The words of the trees in a queue. *)
Definition queue_words (q : list BKNode) : list string :=
  flat_map tree_words q.

(** The trees of the engines: no word twice. *)
Definition tree_distinct (e : AutoCorrectEngine) : Prop :=
  forall root, bkTree e = Some root -> NoDup (tree_words root).

(** The cached arrays: no word twice. *)
Definition cache_distinct (e : AutoCorrectEngine) : Prop :=
  forall k v, In (k, v) (cache e) -> NoDup (map sug_word v).

(** Every cached record has the distance of its word to the key it is
    cached under, and that distance is within the search radius. *)
Definition cache_distances (e : AutoCorrectEngine) : Prop :=
  forall k v, In (k, v) (cache e) ->
  forall r, In r v ->
            sug_distance r = _sift3Distance (sug_word r) k /\
            (sug_distance r <= maxEditDistance (config e))%Q.

(** An engine without index: no dictionary, no tree, and only empty arrays
    in the cache. *)
Definition no_index (e : AutoCorrectEngine) : Prop :=
  dictionary e = [] /\ bkTree e = None /\
  forall k v, In (k, v) (cache e) -> v = [].

(** The shape that insertion gives a tree: under every branch key of a node
    are the words, and only the words, at that distance from the node's
    word. *)
Inductive bk_wf : BKNode -> Prop :=
| bk_wf_node (w : string) (f : Q) (ch : list (Q * BKNode)) :
    (forall k c, In (k, c) ch ->
                 bk_wf c /\
                 forall x, In x (tree_words c) ->
                           (_sift3Distance w x == k)%Q) ->
    bk_wf (mkBKNode w f ch).

(** * Properties *)

(** Reduce the projections of an engine record, and nothing else. *)
Ltac fields :=
  cbn [config dictionary maxFrequency bkTree cache emitted console_error].

(** ** The distance metric *)

Lemma sift3_loop_step maxOffset s1 s2 c offset1 offset2 lcs :
  sift3_loop maxOffset s1 s2 c offset1 offset2 lcs =
  if (c + offset1 <? length s1) && (c + offset2 <? length s2) then
    if (charAt s1 (c + offset1) =? charAt s2 (c + offset2))%string
    then sift3_loop maxOffset s1 s2 (S c) offset1 offset2 (S lcs)
    else sift3_loop maxOffset s1 s2 (S c)
           (fst (realign s1 s2 c 0 maxOffset))
           (snd (realign s1 s2 c 0 maxOffset)) lcs
  else lcs.
Proof.
  rewrite sift3_loop_equation_1.
  destruct (lt_dec (c + offset1) (length s1)) as [H|H]; simpl.
  - apply Nat.ltb_lt in H. rewrite H. reflexivity.
  - apply Nat.ltb_nlt in H. rewrite H. reflexivity.
Qed.

(** Every iteration advances [c] and credits at most one match, so the
    loop adds at most [min(s1.length, s2.length) - c] to [lcs]. *)
Lemma sift3_loop_upper maxOffset s1 s2 n :
  forall c offset1 offset2 lcs,
    length s1 - c <= n ->
    sift3_loop maxOffset s1 s2 c offset1 offset2 lcs
    <= lcs + (Nat.min (length s1) (length s2) - c).
Proof.
  induction n as [|n IH]; intros c o1 o2 lcs Hn;
    rewrite sift3_loop_step;
    destruct (c + o1 <? length s1) eqn:H1; simpl; try lia;
    destruct (c + o2 <? length s2) eqn:H2; simpl; try lia;
    apply Nat.ltb_lt in H1; apply Nat.ltb_lt in H2; try lia.
  destruct (charAt s1 (c + o1) =? charAt s2 (c + o2))%string.
  - etransitivity; [apply IH; lia|]. lia.
  - etransitivity; [apply IH; lia|]. lia.
Qed.

(** On equal strings the offsets stay at 0 and every position matches. *)
Lemma sift3_loop_same maxOffset s n :
  forall c lcs,
    length s - c <= n ->
    sift3_loop maxOffset s s c 0 0 lcs = lcs + (length s - c).
Proof.
  induction n as [|n IH]; intros c lcs Hn;
    rewrite sift3_loop_step; rewrite Nat.add_0_r;
    (destruct (Nat.ltb_spec c (length s)) as [H1|H1]; simpl; [|lia]);
    [lia|].
  rewrite String.eqb_refl. rewrite IH by lia. lia.
Qed.

Lemma charAt_cons_0 a s : charAt (String a s) 0 = String a EmptyString.
Proof. unfold charAt. simpl. destruct s; reflexivity. Qed.

Lemma charAt_cons_S a s k : charAt (String a s) (S k) = charAt s k.
Proof. reflexivity. Qed.

Lemma charAt_ext s1 :
  forall s2,
    length s1 = length s2 ->
    (forall k, k < length s1 -> charAt s1 k = charAt s2 k) ->
    s1 = s2.
Proof.
  induction s1 as [|a s1 IH]; intros [|b s2] Hlen Hk; simpl in *;
    try discriminate; [reflexivity|].
  pose proof (Hk 0 ltac:(lia)) as H0. rewrite !charAt_cons_0 in H0.
  injection H0 as ->. f_equal. apply IH; [lia|].
  intros k Hlt. specialize (Hk (S k) ltac:(lia)).
  now rewrite !charAt_cons_S in Hk.
Qed.

(** When the loop credits every remaining position, no realignment took
    place: the offsets are 0 and the strings agree from [c] on. *)
Lemma sift3_loop_full maxOffset s1 s2 n :
  length s1 = length s2 ->
  forall c offset1 offset2 lcs,
    length s1 - c <= n -> c < length s1 ->
    sift3_loop maxOffset s1 s2 c offset1 offset2 lcs
      = lcs + (length s1 - c) ->
    offset1 = 0 /\ offset2 = 0 /\
    forall k, c <= k < length s1 -> charAt s1 k = charAt s2 k.
Proof.
  intros Hlen.
  induction n as [|n IH]; intros c o1 o2 lcs Hn Hc; [lia|].
  rewrite sift3_loop_step.
  destruct (c + o1 <? length s1) eqn:H1; simpl; [|lia].
  destruct (c + o2 <? length s2) eqn:H2; simpl; [|lia].
  apply Nat.ltb_lt in H1; apply Nat.ltb_lt in H2.
  destruct (charAt s1 (c + o1) =? charAt s2 (c + o2))%string eqn:Hch.
  - intros Heq. apply String.eqb_eq in Hch.
    destruct (Nat.eq_dec (S c) (length s1)) as [Hlast|Hmore].
    + assert (o1 = 0) by lia. assert (o2 = 0) by lia. subst o1 o2.
      rewrite !Nat.add_0_r in Hch.
      repeat split; trivial. intros k Hk.
      assert (k = c) by lia. now subst k.
    + destruct (IH (S c) o1 o2 (S lcs)) as (-> & -> & Hk); try lia.
      rewrite !Nat.add_0_r in Hch.
      repeat split; trivial. intros k Hk'.
      destruct (Nat.eq_dec k c) as [->|]; [assumption|]. apply Hk; lia.
  - intros Heq.
    pose proof (sift3_loop_upper maxOffset s1 s2 n (S c)
                  (fst (realign s1 s2 c 0 maxOffset))
                  (snd (realign s1 s2 c 0 maxOffset)) lcs ltac:(lia)).
    lia.
Qed.

Lemma Qhalf (x : Q) : (x / 2 == x * (1 # 2))%Q.
Proof. reflexivity. Qed.

Lemma Q_of_nat_add (a b : nat) :
  (inject_Z (Z.of_nat (a + b))
   == inject_Z (Z.of_nat a) + inject_Z (Z.of_nat b))%Q.
Proof. now rewrite Nat2Z.inj_add, inject_Z_plus. Qed.

Lemma Q_of_nat_le (a b : nat) :
  a <= b -> (inject_Z (Z.of_nat a) <= inject_Z (Z.of_nat b))%Q.
Proof. intros H. rewrite <- Zle_Qle. lia. Qed.

Lemma Q_of_nat_eq0 (a : nat) : (inject_Z (Z.of_nat a) == 0)%Q -> a = 0.
Proof. unfold Qeq. simpl. lia. Qed.

Lemma truthy_length s : truthy s = negb (length s =? 0).
Proof. destruct s; reflexivity. Qed.

Lemma sift3_nonneg maxOffset a b : (0 <= sift3 maxOffset a b)%Q.
Proof.
  unfold sift3. rewrite !truthy_length.
  destruct (length a =? 0) eqn:Ha; simpl.
  - destruct (length b =? 0); simpl; [apply Qle_refl|].
    apply (Q_of_nat_le 0); lia.
  - destruct (length b =? 0) eqn:Hb; simpl; [apply (Q_of_nat_le 0); lia|].
    pose proof (sift3_loop_upper maxOffset a b (length a) 0 0 0 0
                  ltac:(lia)) as Hu.
    simpl in Hu. rewrite Nat.sub_0_r in Hu.
    pose proof (Q_of_nat_le _ _
                  (Nat.le_trans _ _ _ Hu (Nat.le_min_l _ _))) as Hl.
    pose proof (Q_of_nat_le _ _
                  (Nat.le_trans _ _ _ Hu (Nat.le_min_r _ _))) as Hr.
    rewrite Q_of_nat_add. revert Hl Hr.
    generalize (inject_Z (Z.of_nat (sift3_loop maxOffset a b 0 0 0 0))).
    generalize (inject_Z (Z.of_nat (length a))).
    generalize (inject_Z (Z.of_nat (length b))).
    intros y x l Hl Hr. rewrite Qhalf. lra.
Qed.

Lemma sift3_empty_l maxOffset b :
  (sift3 maxOffset "" b == inject_Z (Z.of_nat (length b)))%Q.
Proof. destruct b; reflexivity. Qed.

Lemma sift3_empty_r maxOffset a :
  (sift3 maxOffset a "" == inject_Z (Z.of_nat (length a)))%Q.
Proof. destruct a; reflexivity. Qed.

Lemma sift3_refl maxOffset s : (sift3 maxOffset s s == 0)%Q.
Proof.
  unfold sift3. rewrite !truthy_length.
  destruct (length s =? 0) eqn:Hs; simpl; [reflexivity|].
  rewrite (sift3_loop_same maxOffset s (length s)) by lia.
  simpl. rewrite Nat.sub_0_r, Q_of_nat_add. field.
Qed.

(** The metric separates strings: distance 0 only between equal strings. *)
Lemma sift3_zero maxOffset a b : (sift3 maxOffset a b == 0)%Q -> a = b.
Proof.
  unfold sift3. rewrite !truthy_length.
  destruct (length a =? 0) eqn:Ha; simpl.
  - apply Nat.eqb_eq in Ha. destruct a; [|discriminate].
    destruct (length b =? 0) eqn:Hb; simpl.
    + apply Nat.eqb_eq in Hb. now destruct b.
    + intros H. apply Q_of_nat_eq0 in H. apply Nat.eqb_neq in Hb. lia.
  - apply Nat.eqb_neq in Ha.
    destruct (length b =? 0) eqn:Hb; simpl.
    + intros H. apply Q_of_nat_eq0 in H. lia.
    + apply Nat.eqb_neq in Hb. intros H.
      pose proof (sift3_loop_upper maxOffset a b (length a) 0 0 0 0
                    ltac:(lia)) as Hu.
      simpl in Hu. rewrite Nat.sub_0_r in Hu.
      set (L := sift3_loop maxOffset a b 0 0 0 0) in *.
      assert (HL : (inject_Z (Z.of_nat (length a + length b))
                    == 2 * inject_Z (Z.of_nat L))%Q).
      { revert H. generalize (inject_Z (Z.of_nat (length a + length b))).
        generalize (inject_Z (Z.of_nat L)). intros x y H.
        rewrite Qhalf in H. lra. }
      assert (HL' : length a + length b = 2 * L).
      { revert HL. unfold Qeq, Qmult, inject_Z, Qnum, Qden.
        change (Z.pos 1) with 1%Z. rewrite !Z.mul_1_r. lia. }
      assert (Hlen : length a = length b) by lia.
      destruct (sift3_loop_full maxOffset a b (length a) Hlen 0 0 0 0)
        as (_ & _ & Hk); try lia.
      apply charAt_ext; [assumption|]. intros k Hlt. apply Hk. lia.
Qed.

(** C6. The distance is never negative; against the empty string it is the
    length of the other string; a string is at distance 0 from itself; and
    the three boundary values of the specification hold. *)
Theorem sift3Distance_contract :
  (forall a b : string, (0 <= _sift3Distance a b)%Q) /\
  (forall b : string,
     (_sift3Distance "" b == inject_Z (Z.of_nat (length b)))%Q) /\
  (forall a : string,
     (_sift3Distance a "" == inject_Z (Z.of_nat (length a)))%Q) /\
  (forall s : string, (_sift3Distance s s == 0)%Q) /\
  (_sift3Distance "" "cat" == 3)%Q /\
  (_sift3Distance "cat" "" == 3)%Q /\
  (_sift3Distance "cat" "cat" == 0)%Q.
Proof.
  unfold _sift3Distance.
  split; [intros a b; apply sift3_nonneg|].
  split; [intros b; apply sift3_empty_l|].
  split; [intros a; apply sift3_empty_r|].
  split; [intros s; apply sift3_refl|].
  split; [|split]; vm_compute; reflexivity.
Qed.

(** ** Insertion into the tree *)

Lemma map_set_get_same {V : Type} (k : Q) (v : V) (m : list (Q * V)) :
  map_get Qeq_bool k m = Some v -> map_set Qeq_bool k v m = m.
Proof.
  induction m as [|[k' v'] m IH]; simpl; [discriminate|].
  destruct (Qeq_bool k' k).
  - now intros [= ->].
  - intros H. now rewrite IH.
Qed.

Lemma map_set_absent {K V : Type} (eqb : K -> K -> bool) (k : K) (v : V)
    (m : list (K * V)) :
  map_get eqb k m = None -> map_set eqb k v m = m ++ [(k, v)].
Proof.
  induction m as [|[k' v'] m IH]; simpl; [reflexivity|].
  destruct (eqb k' k); [discriminate|]. intros H. now rewrite IH.
Qed.

Lemma insert_unfold node newNode :
  _insertIntoBKTree node newNode =
  if Qeq_bool (_sift3Distance (word node) (word newNode)) 0 then node
  else
    match map_get Qeq_bool (_sift3Distance (word node) (word newNode))
            (children node) with
    | Some childNode =>
        mkBKNode (word node) (frequency node)
          (map_set Qeq_bool (_sift3Distance (word node) (word newNode))
             (_insertIntoBKTree childNode newNode) (children node))
    | None =>
        mkBKNode (word node) (frequency node)
          (map_set Qeq_bool (_sift3Distance (word node) (word newNode))
             newNode (children node))
    end.
Proof.
  funelim (_insertIntoBKTree node newNode);
    match goal with H : Qeq_bool _ _ = _ |- _ => rewrite H end;
    try match goal with H : map_get _ _ _ = _ |- _ => rewrite H end;
    reflexivity.
Qed.

Lemma Qeq_bool_false (x y : Q) : ~ (x == y)%Q -> Qeq_bool x y = false.
Proof.
  intros H. destruct (Qeq_bool x y) eqn:E; [|reflexivity].
  apply Qeq_bool_iff in E. contradiction.
Qed.

Lemma insert_discard node newNode :
  (_sift3Distance (word node) (word newNode) == 0)%Q ->
  _insertIntoBKTree node newNode = node.
Proof.
  intros H. apply Qeq_bool_iff in H. rewrite insert_unfold. now rewrite H.
Qed.

Lemma insert_recurse node newNode childNode :
  ~ (_sift3Distance (word node) (word newNode) == 0)%Q ->
  map_get Qeq_bool (_sift3Distance (word node) (word newNode))
    (children node) = Some childNode ->
  _insertIntoBKTree node newNode =
  mkBKNode (word node) (frequency node)
    (map_set Qeq_bool (_sift3Distance (word node) (word newNode))
       (_insertIntoBKTree childNode newNode) (children node)).
Proof.
  intros H Hget. rewrite insert_unfold at 1.
  now rewrite (Qeq_bool_false _ _ H), Hget.
Qed.

Lemma insert_attach node newNode :
  ~ (_sift3Distance (word node) (word newNode) == 0)%Q ->
  map_get Qeq_bool (_sift3Distance (word node) (word newNode))
    (children node) = None ->
  _insertIntoBKTree node newNode =
  mkBKNode (word node) (frequency node)
    (children node
     ++ [(_sift3Distance (word node) (word newNode), newNode)]).
Proof.
  intros H Hget. rewrite insert_unfold.
  rewrite (Qeq_bool_false _ _ H), Hget. now rewrite map_set_absent.
Qed.

(** A discard below the root leaves every node above it as it was. *)
Lemma insert_unchanged_up newNode root node :
  visited newNode root node ->
  _insertIntoBKTree node newNode = node ->
  _insertIntoBKTree root newNode = root.
Proof.
  induction 1 as [|node childNode Hv IH Hd Hget]; [trivial|].
  intros Hc. apply IH.
  rewrite (insert_recurse node newNode childNode Hd Hget), Hc.
  rewrite (map_set_get_same _ _ _ Hget). now destruct node.
Qed.

(** C5. Insertion starts at the root and, at every node it visits, computes
    the distance [d] from the node's word to the new word.  With [d = 0] the
    new node is discarded and the whole tree is as before; with a child
    stored under [d] that child is visited next and is replaced by the result
    of the insertion into it; with no child under [d] the new node becomes
    the last child of the node, under key [d]. *)
Theorem insertIntoBKTree_steps (root newNode node : BKNode) :
  visited newNode root node ->
  let d := _sift3Distance (word node) (word newNode) in
  ((d == 0)%Q ->
     _insertIntoBKTree node newNode = node /\
     _insertIntoBKTree root newNode = root) /\
  (forall childNode,
     ~ (d == 0)%Q ->
     map_get Qeq_bool d (children node) = Some childNode ->
     visited newNode root childNode /\
     _insertIntoBKTree node newNode =
     mkBKNode (word node) (frequency node)
       (map_set Qeq_bool d (_insertIntoBKTree childNode newNode)
          (children node))) /\
  (~ (d == 0)%Q ->
     map_get Qeq_bool d (children node) = None ->
     _insertIntoBKTree node newNode =
     mkBKNode (word node) (frequency node)
       (children node ++ [(d, newNode)])).
Proof.
  intros Hv d. split; [|split].
  - intros Hd. pose proof (insert_discard node newNode Hd) as Hn.
    split; [assumption|]. now apply (insert_unchanged_up newNode root node).
  - intros childNode Hd Hget. split.
    + now apply (visited_child newNode root node childNode).
    + now apply insert_recurse.
  - intros Hd Hget. now apply insert_attach.
Qed.

(** ** Search in the tree *)

Lemma tree_entries_eq n :
  tree_entries n = (word n, frequency n) :: children_entries (children n).
Proof.
  destruct n as [w f ch]; simpl. f_equal. unfold children_entries.
  induction ch as [|[k c] ch IH]; simpl; [reflexivity|]. now rewrite IH.
Qed.

Lemma child_entries_incl (k : Q) (c : BKNode) (ch : list (Q * BKNode)) :
  In (k, c) ch -> incl (tree_entries c) (children_entries ch).
Proof.
  intros Hin w Hw. unfold children_entries. apply in_flat_map.
  exists (k, c). now split.
Qed.

Lemma dequeued_entries queryWord maxDistance root node :
  dequeued queryWord maxDistance root node ->
  incl (tree_entries node) (tree_entries root).
Proof.
  induction 1 as [|node childNode dist Hd IH Hin Hlo Hhi];
    [apply incl_refl|].
  intros w Hw. apply IH. rewrite tree_entries_eq. right.
  now apply (child_entries_incl dist childNode).
Qed.

Lemma dequeued_trans queryWord maxDistance a b c :
  dequeued queryWord maxDistance a b ->
  dequeued queryWord maxDistance b c ->
  dequeued queryWord maxDistance a c.
Proof.
  intros Hab. induction 1 as [|node childNode dist Hd IH Hin Hlo Hhi];
    [assumption|].
  now apply (dequeued_child _ _ _ node childNode dist).
Qed.

(** A dequeued node other than the root was reached through one of the
    children of the root that the search kept. *)
Lemma dequeued_first queryWord maxDistance root node :
  dequeued queryWord maxDistance root node ->
  node = root \/
  exists dist childNode,
    In (dist, childNode) (children root) /\
    (_sift3Distance (word root) queryWord - maxDistance <= dist)%Q /\
    (dist <= _sift3Distance (word root) queryWord + maxDistance)%Q /\
    dequeued queryWord maxDistance childNode node.
Proof.
  induction 1 as [|node childNode dist Hd IH Hin Hlo Hhi];
    [now left|]. right.
  destruct IH as [->|(k & c & Hc & Hl & Hh & Hdc)].
  - exists dist, childNode. repeat split; trivial. constructor.
  - exists k, c. repeat split; trivial.
    now apply (dequeued_child _ _ _ node childNode dist).
Qed.

Lemma in_kept (lo hi : Q) (ch : list (Q * BKNode)) (c : BKNode) :
  In c (map snd (filter (in_range lo hi) ch)) <->
  exists k, In (k, c) ch /\ (lo <= k)%Q /\ (k <= hi)%Q.
Proof.
  rewrite in_map_iff. split.
  - intros ([k c'] & Hc & Hin). simpl in Hc. subst c'.
    apply filter_In in Hin. destruct Hin as [Hin Hr].
    unfold in_range in Hr. simpl in Hr. apply andb_true_iff in Hr.
    destruct Hr as [Hl Hh]. apply Qle_bool_iff in Hl, Hh.
    exists k. tauto.
  - intros (k & Hin & Hl & Hh). exists (k, c). split; [reflexivity|].
    apply filter_In. split; [assumption|].
    unfold in_range. simpl. apply andb_true_iff.
    split; now apply Qle_bool_iff.
Qed.

(** What the loop returns from a queue and the results so far: the results
    so far, and one record for every node dequeued from then on whose
    distance to the query is at most [maxDistance]. *)
Lemma search_loop_In queryWord maxDistance candidates results r :
  In r (search_loop queryWord maxDistance candidates results) <->
  In r results \/
  exists start node,
    In start candidates /\
    dequeued queryWord maxDistance start node /\
    (_sift3Distance (word node) queryWord <= maxDistance)%Q /\
    r = candidate_of queryWord node.
Proof.
  funelim (search_loop queryWord maxDistance candidates results).
  - split; [tauto|]. intros [H|(s & n & [] & _)]. assumption.
  - match goal with IH : forall r, _ <-> _ |- _ => rewrite IH end.
    clear. set (d := _sift3Distance (word node) queryWord).
    split.
    + intros [Hr|(s & n & Hs & Hd & Hle & ->)].
      * destruct (Qle_bool d maxDistance) eqn:E; [|now left].
        apply in_app_or in Hr. destruct Hr as [Hr|[<-|[]]]; [now left|].
        right. exists node, node. apply Qle_bool_iff in E.
        repeat split; trivial; [now left|constructor].
      * right. apply in_app_or in Hs. destruct Hs as [Hs|Hs].
        -- exists s, n. repeat split; trivial. now right.
        -- apply in_kept in Hs. destruct Hs as (k & Hin & Hl & Hh).
           exists node, n. repeat split; trivial; [now left|].
           apply (dequeued_trans _ _ node s n); [|assumption].
           apply (dequeued_child _ _ _ node s k); trivial. constructor.
    + intros [Hr|(s & n & [<-|Hs] & Hd & Hle & ->)].
      * left. destruct (Qle_bool d maxDistance); [|assumption].
        apply in_or_app. now left.
      * apply dequeued_first in Hd.
        destruct Hd as [->|(k & c & Hin & Hl & Hh & Hd)].
        -- left. apply Qle_bool_iff in Hle. fold d in Hle. rewrite Hle.
           apply in_or_app. right. now left.
        -- right. exists c, n. repeat split; trivial.
           apply in_or_app. right. apply in_kept. exists k. tauto.
      * right. exists s, n. repeat split; trivial.
        apply in_or_app. now left.
Qed.

(** The records of a search from the root alone are those of the dequeued
    nodes within [maxDistance]. *)
Lemma search_results queryWord maxDistance root r :
  In r (_searchBKTree (Some root) queryWord maxDistance) <->
  exists node,
    dequeued queryWord maxDistance root node /\
    (_sift3Distance (word node) queryWord <= maxDistance)%Q /\
    r = candidate_of queryWord node.
Proof.
  unfold _searchBKTree. rewrite search_loop_In. split.
  - intros [[]|(s & n & [<-|[]] & Hd & Hle & ->)]. now exists n.
  - intros (n & Hd & Hle & ->). right. exists root, n.
    repeat split; trivial. now left.
Qed.

(** Every record of a search is an entry of the tree, with its distance to
    the query, which is at most [maxDistance]. *)
Lemma search_results_sound queryWord maxDistance root r :
  In r (_searchBKTree (Some root) queryWord maxDistance) ->
  In (cand_word r, cand_frequency r) (tree_entries root) /\
  cand_distance r = _sift3Distance (cand_word r) queryWord /\
  (cand_distance r <= maxDistance)%Q.
Proof.
  intros Hr. apply search_results in Hr. destruct Hr as (n & Hd & Hle & ->).
  simpl. repeat split; trivial.
  apply (dequeued_entries _ _ _ _ Hd). rewrite tree_entries_eq. now left.
Qed.


(** ** Maps with string keys *)

Lemma map_get_In {V : Type} (k : string) (v : V) (m : list (string * V)) :
  map_get String.eqb k m = Some v -> In (k, v) m.
Proof.
  induction m as [|[k' v'] m IH]; simpl; [discriminate|].
  destruct (String.eqb_spec k' k) as [->|Hne].
  - intros [= ->]. now left.
  - intros H. right. now apply IH.
Qed.

Lemma map_has_keys {V : Type} (k : string) (m : list (string * V)) :
  map_has String.eqb k m = true <-> In k (map_keys m).
Proof.
  unfold map_has, map_keys.
  induction m as [|[k' v'] m IH]; simpl; [split; [discriminate|tauto]|].
  destruct (String.eqb_spec k' k) as [->|Hne].
  - split; [now left|reflexivity].
  - rewrite IH. split; [now right|]. now intros [H|H].
Qed.

Lemma map_set_keys {V : Type} (k : string) (v : V) (m : list (string * V)) :
  map_keys (map_set String.eqb k v m) =
  if map_has String.eqb k m then map_keys m else map_keys m ++ [k].
Proof.
  unfold map_has, map_keys.
  induction m as [|[k' v'] m IH]; simpl; [reflexivity|].
  destruct (String.eqb_spec k' k) as [->|Hne]; simpl; [reflexivity|].
  rewrite IH. now destruct (map_get String.eqb k m).
Qed.

Lemma map_set_In {V : Type} (k : string) (v : V) (m : list (string * V))
    (x : string * V) :
  In x (map_set String.eqb k v m) -> In x m \/ x = (k, v).
Proof.
  induction m as [|[k' v'] m IH]; simpl.
  - intros [<-|[]]. now right.
  - destruct (String.eqb_spec k' k) as [->|Hne]; simpl.
    + intros [<-|H]; [now right|]. left. now right.
    + intros [<-|H]; [left; now left|].
      destruct (IH H) as [H'|H']; [left; now right|now right].
Qed.

Lemma map_set_get {V : Type} (k : string) (v : V) (m : list (string * V)) :
  map_get String.eqb k (map_set String.eqb k v m) = Some v.
Proof.
  induction m as [|[k' v'] m IH]; simpl.
  - now rewrite String.eqb_refl.
  - destruct (String.eqb k' k) eqn:E; simpl; now rewrite E.
Qed.

Lemma map_set_get_last {V : Type} (k : string) (v : V)
    (m : list (string * V)) :
  map_get String.eqb k m = None ->
  map_get String.eqb k (m ++ [(k, v)]) = Some v.
Proof.
  intros H. rewrite <- (map_set_absent String.eqb k v m H).
  apply map_set_get.
Qed.

Lemma map_delete_In {V : Type} (k : string) (m : list (string * V))
    (x : string * V) :
  In x (map_delete String.eqb k m) -> In x m.
Proof.
  induction m as [|[k' v'] m IH]; simpl; [tauto|].
  destruct (String.eqb k' k); simpl; [now right|].
  intros [<-|H]; [now left|]. right. now apply IH.
Qed.

Lemma map_delete_get_None {V : Type} (k k' : string)
    (m : list (string * V)) :
  map_get String.eqb k m = None ->
  map_get String.eqb k (map_delete String.eqb k' m) = None.
Proof.
  induction m as [|[k1 v1] m IH]; simpl; [reflexivity|].
  destruct (String.eqb k1 k) eqn:E; [discriminate|]. intros H.
  destruct (String.eqb k1 k'); simpl; [assumption|].
  rewrite E. now apply IH.
Qed.

Lemma map_set_nonempty {V : Type} (k : string) (v : V)
    (m : list (string * V)) :
  map_set String.eqb k v m <> [].
Proof. destruct m as [|[k' v'] m]; simpl; [|destruct (String.eqb k' k)]; discriminate. Qed.

Lemma map_set_keys_NoDup {V : Type} (k : string) (v : V)
    (m : list (string * V)) :
  NoDup (map_keys m) -> NoDup (map_keys (map_set String.eqb k v m)).
Proof.
  intros H. rewrite map_set_keys.
  destruct (map_has String.eqb k m) eqn:E; [assumption|].
  apply NoDup_app; [assumption|constructor; [tauto|constructor]|].
  intros x Hx [<-|[]]. apply map_has_keys in Hx. congruence.
Qed.

(** ** Lower case *)

Lemma lower_char_a_z (a : ascii) : is_a_z a = true -> lower_char a = a.
Proof.
  unfold is_a_z, lower_char. intros H. apply andb_true_iff in H.
  destruct H as [H1 H2]. apply Nat.leb_le in H1, H2.
  cbv zeta.
  assert (H90 : (nat_of_ascii a <=? 90) = false) by (apply Nat.leb_gt; lia).
  assert (H192 : (192 <=? nat_of_ascii a) = false)
    by (apply Nat.leb_gt; lia).
  rewrite H90, H192, andb_false_r. reflexivity.
Qed.

Lemma toLowerCase_a_z (w : string) :
  all_a_z w = true -> toLowerCase w = w.
Proof.
  induction w as [|a w IH]; simpl; [reflexivity|].
  intros H. apply andb_true_iff in H. destruct H as [Ha Hw].
  now rewrite lower_char_a_z, IH.
Qed.

Lemma test_a_z_sound (w : string) :
  test_a_z w = true -> w <> "" /\ toLowerCase w = w.
Proof.
  unfold test_a_z. intros H. apply andb_true_iff in H.
  destruct H as [Ht Ha]. split; [now destruct w|].
  now apply toLowerCase_a_z.
Qed.

Lemma technicalTerms_a_z :
  Forall (fun term => test_a_z term = true) technicalTerms.
Proof. repeat constructor. Qed.

(** ** What the tree holds after insertions *)

Lemma map_get_Q_In (d : Q) (c : BKNode) (ch : list (Q * BKNode)) :
  map_get Qeq_bool d ch = Some c -> exists k, In (k, c) ch.
Proof.
  induction ch as [|[k c'] ch IH]; simpl; [discriminate|].
  destruct (Qeq_bool k d).
  - intros [= ->]. exists k. now left.
  - intros H. destruct (IH H) as (k' & Hk). exists k'. now right.
Qed.

Lemma children_entries_set (d : Q) (c' : BKNode) (ch : list (Q * BKNode))
    (x : string * Q) :
  In x (children_entries (map_set Qeq_bool d c' ch)) ->
  In x (children_entries ch) \/ In x (tree_entries c').
Proof.
  unfold children_entries.
  induction ch as [|[k c] ch IH]; simpl.
  - rewrite app_nil_r. now right.
  - destruct (Qeq_bool k d); simpl; rewrite !in_app_iff.
    + intros [H|H]; [now right|left; now right].
    + intros [H|H]; [left; now left|].
      destruct (IH H) as [H'|H']; [left; now right|now right].
Qed.

Lemma children_count_set (d : Q) (c c' : BKNode) (ch : list (Q * BKNode)) :
  map_get Qeq_bool d ch = Some c ->
  children_count (map_set Qeq_bool d c' ch) + node_count c
  = children_count ch + node_count c'.
Proof.
  unfold children_count.
  induction ch as [|[k c0] ch IH]; simpl; [discriminate|].
  destruct (Qeq_bool k d); simpl.
  - intros [= ->]. lia.
  - intros H. specialize (IH H). lia.
Qed.

Lemma children_count_app ch1 ch2 :
  children_count (ch1 ++ ch2) = children_count ch1 + children_count ch2.
Proof. unfold children_count. now rewrite map_app, list_sum_app. Qed.

(** Insertion adds no entry of its own: what the tree holds afterwards was
    in the tree or in the new node. *)
Lemma insert_entries node newNode (x : string * Q) :
  In x (tree_entries (_insertIntoBKTree node newNode)) ->
  In x (tree_entries node) \/ In x (tree_entries newNode).
Proof.
  funelim (_insertIntoBKTree node newNode).
  - now left.
  - rewrite (tree_entries_eq (mkBKNode _ _ _)),
      (tree_entries_eq node). simpl.
    intros [<-|Hx]; [left; now left|].
    apply children_entries_set in Hx. destruct Hx as [Hx|Hx].
    + left. now right.
    + match goal with IH : forall x, _ -> _ \/ _ |- _ =>
        destruct (IH _ Hx) as [Hc|Hn] end; [|now right].
      left. right.
      match goal with Hg : map_get _ _ _ = Some _ |- _ =>
        destruct (map_get_Q_In _ _ _ Hg) as (k & Hk) end.
      now apply (child_entries_incl k childNode).
  - rewrite (tree_entries_eq (mkBKNode _ _ _)),
      (tree_entries_eq node). simpl.
    intros [<-|Hx]; [left; now left|].
    apply children_entries_set in Hx. destruct Hx as [Hx|Hx];
      [left; now right|now right].
Qed.

(** A node whose word is not in the tree is not discarded: the tree grows
    by the nodes of the new node. *)
Lemma insert_count node newNode :
  (forall w, In w (tree_words node) -> w <> word newNode) ->
  node_count (_insertIntoBKTree node newNode)
  = node_count node + node_count newNode.
Proof.
  funelim (_insertIntoBKTree node newNode); intros Hfresh.
  - exfalso. apply (Hfresh (word node)).
    + unfold tree_words. rewrite tree_entries_eq. now left.
    + apply (sift3_zero 5). now apply Qeq_bool_iff.
  - match goal with Hg : map_get _ _ _ = Some _ |- _ =>
      pose proof (children_count_set _ _
        (_insertIntoBKTree childNode newNode) _ Hg) as Hc;
      destruct (map_get_Q_In _ _ _ Hg) as (k & Hk) end.
    match goal with IH : _ -> node_count _ = _ |- _ =>
      rewrite IH in Hc end.
    + rewrite (node_count_eq (mkBKNode _ _ _)), (node_count_eq node).
      simpl. lia.
    + intros w Hw. apply Hfresh. unfold tree_words in *.
      apply in_map_iff in Hw. destruct Hw as (x & <- & Hx).
      apply in_map. rewrite tree_entries_eq. right.
      now apply (child_entries_incl k childNode).
  - match goal with Hg : map_get _ _ _ = None |- _ =>
      rewrite (map_set_absent _ _ _ _ Hg) end.
    rewrite (node_count_eq (mkBKNode _ _ _)), (node_count_eq node).
    simpl. rewrite children_count_app. unfold children_count at 2.
    simpl. lia.
Qed.

(** ** Construction *)

Lemma ingest_inv maxFrequency popularWords :
  forall index d,
    NoDup (map_keys d) ->
    Forall (fun wf => test_a_z (fst wf) = true) d ->
    NoDup (map_keys (ingest maxFrequency popularWords index d)) /\
    Forall (fun wf => test_a_z (fst wf) = true)
      (ingest maxFrequency popularWords index d).
Proof.
  induction popularWords as [|w ws IH]; intros index d Hn Hf; simpl;
    [now split|].
  destruct ((1 <? length w) && test_a_z w) eqn:E; [|now apply IH].
  apply andb_true_iff in E. destruct E as [_ Ht].
  apply IH; [now apply map_set_keys_NoDup|].
  apply Forall_forall. intros x Hx.
  apply map_set_In in Hx. destruct Hx as [Hx| ->]; [|assumption].
  now apply (proj1 (Forall_forall _ _) Hf).
Qed.

Lemma boost_inv maxFrequency terms :
  Forall (fun term => test_a_z term = true) terms ->
  forall d,
    NoDup (map_keys d) ->
    Forall (fun wf => test_a_z (fst wf) = true) d ->
    NoDup (map_keys (boost maxFrequency terms d)) /\
    Forall (fun wf => test_a_z (fst wf) = true)
      (boost maxFrequency terms d).
Proof.
  unfold boost. induction 1 as [|term terms Ht Hts IH]; intros d Hn Hf;
    simpl; [now split|].
  apply IH; [now apply map_set_keys_NoDup|].
  apply Forall_forall. intros x Hx.
  apply map_set_In in Hx. destruct Hx as [Hx| ->]; [|assumption].
  now apply (proj1 (Forall_forall _ _) Hf).
Qed.

Lemma boost_zero maxFrequency terms :
  (maxFrequency == 0)%Q ->
  forall d,
    Forall (fun wf : string * Q => (snd wf == 0)%Q) d ->
    Forall (fun wf : string * Q => (snd wf == 0)%Q)
      (boost maxFrequency terms d).
Proof.
  intros Hz. unfold boost. induction terms as [|term terms IH];
    intros d Hf; simpl; [assumption|].
  apply IH. apply Forall_forall. intros x Hx.
  apply map_set_In in Hx. destruct Hx as [Hx| ->].
  - now apply (proj1 (Forall_forall _ _) Hf).
  - simpl. rewrite Hz. reflexivity.
Qed.

Lemma boost_nonempty maxFrequency term terms d :
  boost maxFrequency (term :: terms) d <> [].
Proof.
  unfold boost. simpl.
  assert (H : forall ts d', d' <> [] ->
    fold_left (fun d0 t => map_set String.eqb t (maxFrequency * (12 # 10))%Q d0)
      ts d' <> []).
  { induction ts as [|t ts IH]; intros d' Hd; simpl; [assumption|].
    apply IH. apply map_set_nonempty. }
  apply H. apply map_set_nonempty.
Qed.

(** The loop of [buildBKTree] discards nothing when the keys are distinct:
    the tree gains one node per entry, and holds only those entries. *)
Lemma build_fold (it : list (string * Q)) :
  forall bkTree,
    NoDup (map_keys it) ->
    (forall w, In w (tree_words bkTree) -> ~ In w (map_keys it)) ->
    node_count (fold_left build_step it bkTree)
    = node_count bkTree + List.length it /\
    forall x, In x (tree_entries (fold_left build_step it bkTree)) ->
              In x (tree_entries bkTree) \/ In x it.
Proof.
  induction it as [|[w f] it IH]; intros t Hn Hfresh; simpl.
  - split; [lia|]. intros x Hx. now left.
  - unfold map_keys in Hn. simpl in Hn. apply NoDup_cons_iff in Hn.
    destruct Hn as [Hw Hn].
    assert (Hc : node_count (build_step t (w, f)) = S (node_count t)).
    { unfold build_step. rewrite insert_count; [simpl; lia|].
      simpl. intros w' Hw' ->. apply (Hfresh w Hw'). now left. }
    assert (He : forall x, In x (tree_entries (build_step t (w, f))) ->
                           In x (tree_entries t) \/ x = (w, f)).
    { intros x Hx. unfold build_step in Hx. apply insert_entries in Hx.
      simpl in Hx. destruct Hx as [Hx|[<-|[]]]; [now left|now right]. }
    destruct (IH (build_step t (w, f)) Hn) as [IHc IHe].
    { intros w' Hw'. unfold tree_words in Hw'.
      apply in_map_iff in Hw'. destruct Hw' as (x & <- & Hx).
      destruct (He x Hx) as [Hx'| ->]; [|assumption].
      intros Hin. apply (Hfresh (fst x)).
      - unfold tree_words. now apply in_map.
      - now right. }
    split; [lia|].
    intros x Hx. destruct (IHe x Hx) as [Hx'|Hx']; [|right; now right].
    destruct (He x Hx') as [H| ->]; [now left|right; now left].
Qed.

Lemma loaded_dictionary_inv popularWords :
  NoDup (map_keys (loaded_dictionary popularWords)) /\
  Forall (fun wf => test_a_z (fst wf) = true)
    (loaded_dictionary popularWords) /\
  loaded_dictionary popularWords <> [] /\
  ((0 < inject_Z (Z.of_nat (List.length popularWords)))%Q \/
   ((inject_Z (Z.of_nat (List.length popularWords)) == 0)%Q /\
    Forall (fun wf : string * Q => (snd wf == 0)%Q)
      (loaded_dictionary popularWords))).
Proof.
  unfold loaded_dictionary.
  destruct (ingest_inv (inject_Z (Z.of_nat (List.length popularWords)))
              popularWords 0 [] (NoDup_nil _) (Forall_nil _)) as [Hn Hf].
  destruct (boost_inv (inject_Z (Z.of_nat (List.length popularWords)))
              technicalTerms technicalTerms_a_z _ Hn Hf) as [Hn' Hf'].
  repeat split; trivial.
  - apply boost_nonempty.
  - destruct popularWords as [|w ws].
    + right. split; [reflexivity|]. apply boost_zero; [reflexivity|].
      constructor.
    + left. simpl List.length. unfold Qlt. simpl. lia.
Qed.

Lemma loadDictionary_returned getMostPopular e popularWords :
  getMostPopular (dictionarySize (config e)) = Returned popularWords ->
  loadDictionary getMostPopular e =
  mkEngine (config e)
    (boost (inject_Z (Z.of_nat (List.length popularWords))) technicalTerms
       (ingest (inject_Z (Z.of_nat (List.length popularWords)))
          popularWords 0 (dictionary e)))
    (inject_Z (Z.of_nat (List.length popularWords))) (bkTree e) (cache e)
    (emitted e ++
     [dictionary_loaded
        (List.length
           (boost (inject_Z (Z.of_nat (List.length popularWords)))
              technicalTerms
              (ingest (inject_Z (Z.of_nat (List.length popularWords)))
                 popularWords 0 (dictionary e))))])
    (console_error e).
Proof. intros Hsrc. unfold loadDictionary. rewrite Hsrc. reflexivity. Qed.

Lemma buildBKTree_cons e firstWord firstFreq it :
  dictionary e = (firstWord, firstFreq) :: it ->
  buildBKTree e =
  mkEngine (config e) (dictionary e) (maxFrequency e)
    (Some (fold_left build_step it (new_BKNode firstWord firstFreq)))
    (cache e)
    (emitted e ++ [bk_tree_built (List.length (dictionary e))])
    (console_error e).
Proof. intros Hd. unfold buildBKTree. rewrite Hd. reflexivity. Qed.

Lemma new_engine_returned options getMostPopular popularWords :
  getMostPopular (dictionarySize (mk_config options))
    = Returned popularWords ->
  exists firstWord firstFreq it,
    loaded_dictionary popularWords = (firstWord, firstFreq) :: it /\
    new_AutoCorrectEngine options getMostPopular =
    mkEngine (mk_config options) (loaded_dictionary popularWords)
      (inject_Z (Z.of_nat (List.length popularWords)))
      (Some (fold_left build_step it (new_BKNode firstWord firstFreq)))
      []
      [dictionary_loaded (List.length (loaded_dictionary popularWords));
       bk_tree_built (List.length (loaded_dictionary popularWords))]
      [].
Proof.
  intros Hsrc.
  destruct (loaded_dictionary_inv popularWords) as (_ & _ & Hne & _).
  destruct (loaded_dictionary popularWords) as [|[w f] it] eqn:Hd;
    [contradiction|].
  exists w, f, it. split; [reflexivity|].
  unfold new_AutoCorrectEngine, _initialize.
  rewrite (loadDictionary_returned getMostPopular
             (mkEngine (mk_config options) [] 0%Q None [] [] [])
             popularWords Hsrc).
  cbn [config dictionary maxFrequency bkTree cache emitted console_error].
  fold (loaded_dictionary popularWords).
  rewrite (buildBKTree_cons _ w f it);
    cbn [config dictionary maxFrequency bkTree cache emitted console_error];
    [|exact Hd].
  rewrite Hd. reflexivity.
Qed.

Lemma new_engine_threw options getMostPopular message :
  getMostPopular (dictionarySize (mk_config options)) = Threw message ->
  new_AutoCorrectEngine options getMostPopular =
  mkEngine (mk_config options) [] 0%Q None [] [] [message].
Proof.
  intros Hsrc.
  unfold new_AutoCorrectEngine, _initialize, loadDictionary.
  cbn [config dictionary maxFrequency bkTree cache emitted console_error].
  rewrite Hsrc. reflexivity.
Qed.

Lemma tree_words_new w f : tree_words (new_BKNode w f) = [w].
Proof. reflexivity. Qed.

(** The tree built from a dictionary with distinct keys has one node per
    entry and holds dictionary entries only. *)
Lemma built_tree (firstWord : string) (firstFreq : Q) it :
  NoDup (map_keys ((firstWord, firstFreq) :: it)) ->
  node_count (fold_left build_step it (new_BKNode firstWord firstFreq))
  = S (List.length it) /\
  incl (tree_entries
          (fold_left build_step it (new_BKNode firstWord firstFreq)))
       ((firstWord, firstFreq) :: it).
Proof.
  unfold map_keys. simpl. intros Hn. apply NoDup_cons_iff in Hn.
  destruct Hn as [Hw Hn].
  destruct (build_fold it (new_BKNode firstWord firstFreq) Hn) as [Hc He].
  { rewrite tree_words_new. intros w [<-|[]]. exact Hw. }
  split; [simpl in Hc; lia|].
  intros x Hx. destruct (He x Hx) as [[<-|[]]|H]; [now left|now right].
Qed.

Lemma new_engine_index_ok options getMostPopular :
  index_ok (new_AutoCorrectEngine options getMostPopular).
Proof.
  destruct (getMostPopular (dictionarySize (mk_config options)))
    as [popularWords|message] eqn:Hsrc.
  - destruct (new_engine_returned _ _ _ Hsrc)
      as (w & f & it & Hd & ->).
    destruct (loaded_dictionary_inv popularWords) as (Hn & Hf & _ & Hs).
    constructor; fields; trivial.
    intros root [= <-]. rewrite Hd in *. now apply built_tree.
  - rewrite (new_engine_threw _ _ _ Hsrc).
    constructor; fields.
    + constructor.
    + constructor.
    + right. split; [reflexivity|constructor].
    + discriminate.
Qed.

(** C8 (as amended). When the word source returns, construction emits
    [dictionary-loaded] with the size of the dictionary and then
    [bk-tree-built] with the number of nodes of the tree, once each and
    nothing else; when the word source throws, construction emits no signal,
    builds no tree and writes the message to the error console. *)
Theorem construction_signals (options : Options)
    (getMostPopular : N -> SourceOutcome) :
  let e := new_AutoCorrectEngine options getMostPopular in
  match getMostPopular (dictionarySize (mk_config options)) with
  | Returned popularWords =>
      exists root,
        bkTree e = Some root /\
        emitted e = [dictionary_loaded (List.length (dictionary e));
                     bk_tree_built (node_count root)]
  | Threw message =>
      emitted e = [] /\ bkTree e = None /\ dictionary e = [] /\
      console_error e = [message]
  end.
Proof.
  intros e. subst e.
  destruct (getMostPopular (dictionarySize (mk_config options)))
    as [popularWords|message] eqn:Hsrc.
  - destruct (new_engine_returned _ _ _ Hsrc)
      as (w & f & it & Hd & ->). fields.
    exists (fold_left build_step it (new_BKNode w f)).
    split; [reflexivity|].
    destruct (loaded_dictionary_inv popularWords) as (Hn & _).
    rewrite Hd in *. destruct (built_tree w f it Hn) as [-> _].
    reflexivity.
  - rewrite (new_engine_threw _ _ _ Hsrc). fields. repeat split.
Qed.

(** C8, as stated, fails: with a word source that throws, the engine is
    constructed and has emitted neither signal. *)
Lemma construction_signals_not_always :
  ~ (exists wordCount nodeCount,
       emitted (new_AutoCorrectEngine (mkOptions None None None)
                  (fun _ => Threw "word source unavailable"))
       = [dictionary_loaded wordCount; bk_tree_built nodeCount]).
Proof. intros (n & m & H). discriminate H. Qed.

(** ** Sorting by confidence *)

Lemma sort_insert_In {A : Type} (compare : A -> A -> jsnum) (a x : A) l :
  In x (sort_insert compare a l) <-> x = a \/ In x l.
Proof.
  induction l as [|b l IH]; cbn [sort_insert In]; [intuition|].
  destruct (js_lt (Fin 0) (compare a b)); cbn [In]; [rewrite IH|];
    intuition.
Qed.

Lemma js_sort_In {A : Type} (compare : A -> A -> jsnum) (x : A) l :
  In x (js_sort compare l) <-> In x l.
Proof.
  induction l as [|a l IH]; cbn [js_sort fold_right In]; [tauto|].
  fold (js_sort compare l). rewrite sort_insert_In, IH. intuition.
Qed.

Lemma sort_insert_length {A : Type} (compare : A -> A -> jsnum) (a : A) l :
  List.length (sort_insert compare a l) = S (List.length l).
Proof.
  induction l as [|b l IH]; cbn [sort_insert]; [reflexivity|].
  destruct (js_lt (Fin 0) (compare a b)); cbn [List.length];
    [now rewrite IH|reflexivity].
Qed.

Lemma js_sort_length {A : Type} (compare : A -> A -> jsnum) (l : list A) :
  List.length (js_sort compare l) = List.length l.
Proof.
  induction l as [|a l IH]; cbn [js_sort fold_right]; [reflexivity|].
  fold (js_sort compare l). now rewrite sort_insert_length, IH.
Qed.

Lemma no_increase_fin a b qa qb :
  sug_confidence a = Fin qa -> sug_confidence b = Fin qb ->
  (no_increase a b <-> (qb <= qa)%Q).
Proof.
  intros Ha Hb. unfold no_increase. rewrite Ha, Hb. simpl.
  rewrite negb_false_iff. apply Qle_bool_iff.
Qed.

Lemma by_confidence_fin a b qa qb :
  sug_confidence a = Fin qa -> sug_confidence b = Fin qb ->
  js_lt (Fin 0) (by_confidence a b) = negb (Qle_bool qb qa).
Proof.
  intros Ha Hb. unfold by_confidence. rewrite Ha, Hb. simpl.
  f_equal. destruct (Qle_bool qb qa) eqn:E.
  - apply Qle_bool_iff in E. apply Qle_bool_iff. lra.
  - destruct (Qle_bool (qb + - qa) 0) eqn:E'; [|reflexivity].
    apply Qle_bool_iff in E'.
    assert (qb <= qa)%Q by lra.
    apply Qle_bool_iff in H. congruence.
Qed.

(** With finite confidences the comparison is a total preorder, so the
    insertion keeps a sorted array sorted. *)
Lemma sort_insert_sorted a l :
  finite a -> Forall finite l -> non_increasing l ->
  non_increasing (sort_insert by_confidence a l).
Proof.
  intros [qa Ha] Hfin. unfold non_increasing.
  induction 1 as [|b l Hs IH Hb]; cbn [sort_insert].
  - repeat constructor.
  - apply Forall_cons_iff in Hfin. destruct Hfin as [[qb Hqb] Hfin].
    rewrite (by_confidence_fin a b qa qb Ha Hqb).
    destruct (Qle_bool qb qa) eqn:E; cbn [negb].
    + apply Qle_bool_iff in E.
      constructor; [now constructor|].
      constructor; [now apply (no_increase_fin a b qa qb)|].
      apply Forall_forall. intros x Hx.
      pose proof (proj1 (Forall_forall _ _) Hfin x Hx) as [qx Hqx].
      pose proof (proj1 (Forall_forall _ _) Hb x Hx) as Hbx.
      apply (no_increase_fin b x qb qx Hqb Hqx) in Hbx.
      apply (no_increase_fin a x qa qx Ha Hqx). lra.
    + constructor; [now apply IH|].
      apply Forall_forall. intros x Hx. apply sort_insert_In in Hx.
      destruct Hx as [->|Hx].
      * apply (no_increase_fin b a qb qa Hqb Ha).
        destruct (Qlt_le_dec qb qa) as [Hlt|Hle]; [|assumption].
        apply Qlt_le_weak in Hlt. apply Qle_bool_iff in Hlt. congruence.
      * now apply (proj1 (Forall_forall _ _) Hb).
Qed.

Lemma js_sort_sorted_finite l :
  Forall finite l -> non_increasing (js_sort by_confidence l).
Proof.
  induction 1 as [|a l Ha Hl IH]; cbn [js_sort fold_right]; [constructor|].
  fold (js_sort by_confidence l). apply sort_insert_sorted; trivial.
  apply Forall_forall. intros x Hx. apply js_sort_In in Hx.
  now apply (proj1 (Forall_forall _ _) Hl).
Qed.

(** When every confidence is NaN no comparison holds, in any order. *)
Lemma all_NaN_sorted l :
  Forall (fun r => sug_confidence r = NaN) l -> non_increasing l.
Proof.
  unfold non_increasing. induction 1 as [|a l Ha Hl IH]; constructor;
    trivial.
  apply Forall_forall. intros x _. unfold no_increase. now rewrite Ha.
Qed.

Lemma firstn_In {A : Type} (n : nat) (l : list A) (x : A) :
  In x (firstn n l) -> In x l.
Proof.
  intros H. rewrite <- (firstn_skipn n l). apply in_or_app. now left.
Qed.

Lemma firstn_sorted n l : non_increasing l -> non_increasing (firstn n l).
Proof.
  unfold non_increasing. intros H. revert n.
  induction H as [|a l Hs IH Ha]; intros [|n]; simpl; try constructor.
  - apply IH.
  - apply Forall_forall. intros x Hx.
    apply (proj1 (Forall_forall _ _) Ha). now apply (firstn_In n).
Qed.

(** ** Queries *)

Section Queries.
Variable log1p : Q -> Q.

Lemma getCorrections_hit word e cached :
  map_get String.eqb (toLowerCase word) (cache e) = Some cached ->
  getCorrections log1p word e = (cached, e).
Proof. intros H. unfold getCorrections. cbv zeta. now rewrite H. Qed.

Lemma getCorrections_exact word e :
  map_get String.eqb (toLowerCase word) (cache e) = None ->
  map_has String.eqb (toLowerCase word) (dictionary e) = true ->
  getCorrections log1p word e = ([mkSuggestion word 0 None (Fin 1)], e).
Proof.
  intros Hc Hd. unfold getCorrections. cbv zeta. now rewrite Hc, Hd.
Qed.

Lemma getCorrections_miss word e :
  map_get String.eqb (toLowerCase word) (cache e) = None ->
  map_has String.eqb (toLowerCase word) (dictionary e) = false ->
  getCorrections log1p word e =
  (rankedResults log1p e (toLowerCase word),
   mkEngine (config e) (dictionary e) (maxFrequency e) (bkTree e)
     (cache_store (cacheSize (config e)) (toLowerCase word)
        (rankedResults log1p e (toLowerCase word)) (cache e))
     (emitted e) (console_error e)).
Proof.
  intros Hc Hd. unfold getCorrections. cbv zeta. now rewrite Hc, Hd.
Qed.

(** A call changes the cache and nothing else. *)
Lemma getCorrections_static word e :
  let e' := snd (getCorrections log1p word e) in
  config e' = config e /\ dictionary e' = dictionary e /\
  maxFrequency e' = maxFrequency e /\ bkTree e' = bkTree e /\
  emitted e' = emitted e /\ console_error e' = console_error e.
Proof.
  cbv zeta.
  destruct (map_get String.eqb (toLowerCase word) (cache e)) as [v|] eqn:Hc.
  - rewrite (getCorrections_hit _ _ _ Hc). now repeat split.
  - destruct (map_has String.eqb (toLowerCase word) (dictionary e)) eqn:Hd.
    + rewrite (getCorrections_exact _ _ Hc Hd). now repeat split.
    + rewrite (getCorrections_miss _ _ Hc Hd). now repeat split.
Qed.

Lemma index_ok_static e e' :
  dictionary e' = dictionary e -> maxFrequency e' = maxFrequency e ->
  bkTree e' = bkTree e -> index_ok e -> index_ok e'.
Proof.
  intros Hd Hm Ht [H1 H2 H3 H4].
  constructor; rewrite ?Hd, ?Hm, ?Ht; assumption.
Qed.

Lemma getCorrections_index_ok word e :
  index_ok e -> index_ok (snd (getCorrections log1p word e)).
Proof.
  pose proof (getCorrections_static word e) as H. cbv zeta in H.
  destruct H as (_ & Hd & Hm & Ht & _). now apply index_ok_static.
Qed.

(** The stored entries after a miss: those that were there, less the
    evicted one, and the new pair. *)
Lemma cache_store_In cacheSize key value cache (x : string * list Suggestion) :
  In x (cache_store cacheSize key value cache) ->
  In x cache \/ x = (key, value).
Proof.
  unfold cache_store, evict_oldest. intros H. apply map_set_In in H.
  destruct H as [H|H]; [left|now right].
  destruct (cacheSize <=? List.length cache); [|assumption].
  destruct (map_first_key cache); [|assumption].
  now apply map_delete_In in H.
Qed.

(** The ranked results are at most five ranked candidates of the search. *)
Lemma rankedResults_length e lowerCaseWord :
  List.length (rankedResults log1p e lowerCaseWord) <= 5.
Proof. unfold rankedResults. apply firstn_le_length. Qed.

Lemma rankedResults_In e lowerCaseWord r :
  In r (rankedResults log1p e lowerCaseWord) ->
  exists candidate,
    In candidate (_searchBKTree (bkTree e) lowerCaseWord
                    (maxEditDistance (config e))) /\
    r = rank log1p (maxFrequency e) lowerCaseWord candidate.
Proof.
  unfold rankedResults. intros H. apply firstn_In in H.
  apply js_sort_In in H. apply in_map_iff in H.
  destruct H as (c & <- & Hc). now exists c.
Qed.

(** A candidate of the search on the engine's tree is a dictionary entry. *)
Lemma candidate_in_dictionary e lowerCaseWord candidate :
  index_ok e ->
  In candidate (_searchBKTree (bkTree e) lowerCaseWord
                  (maxEditDistance (config e))) ->
  In (cand_word candidate, cand_frequency candidate) (dictionary e).
Proof.
  intros Hok Hc. destruct (bkTree e) as [root|] eqn:Ht; [|destruct Hc].
  destruct (search_results_sound _ _ _ _ Hc) as (He & _).
  now apply (tree_in_dictionary e Hok root Ht).
Qed.

Lemma rankedResults_words e lowerCaseWord r :
  index_ok e ->
  In r (rankedResults log1p e lowerCaseWord) ->
  In (sug_word r) (map_keys (dictionary e)) /\ sug_frequency r <> None.
Proof.
  intros Hok Hr. apply rankedResults_In in Hr.
  destruct Hr as (c & Hc & ->). simpl. split; [|discriminate].
  apply (candidate_in_dictionary e lowerCaseWord c Hok) in Hc.
  unfold map_keys. apply in_map_iff. now exists (cand_word c, cand_frequency c).
Qed.

Lemma getCorrections_cache_ok word e :
  index_ok e -> cache_ok e -> cache_ok (snd (getCorrections log1p word e)).
Proof.
  intros Hi [Hk Hv].
  destruct (map_get String.eqb (toLowerCase word) (cache e)) as [v|] eqn:Hc.
  { rewrite (getCorrections_hit _ _ _ Hc). now constructor. }
  destruct (map_has String.eqb (toLowerCase word) (dictionary e)) eqn:Hd.
  { rewrite (getCorrections_exact _ _ Hc Hd). now constructor. }
  rewrite (getCorrections_miss _ _ Hc Hd).
  constructor; cbn [snd]; fields; intros k v Hin;
    apply cache_store_In in Hin; destruct Hin as [Hin|[= -> ->]].
  - now apply (Hk k v).
  - assumption.
  - now apply (Hv k v).
  - split; [apply rankedResults_length|].
    intros r Hr. now apply (rankedResults_words e (toLowerCase word)).
Qed.

Lemma new_engine_cache_ok options getMostPopular :
  cache_ok (new_AutoCorrectEngine options getMostPopular).
Proof.
  assert (H : cache (new_AutoCorrectEngine options getMostPopular) = []).
  { destruct (getMostPopular (dictionarySize (mk_config options)))
      as [popularWords|message] eqn:Hsrc.
    - destruct (new_engine_returned _ _ _ Hsrc) as (w & f & it & _ & ->).
      reflexivity.
    - now rewrite (new_engine_threw _ _ _ Hsrc). }
  constructor; rewrite H; intros k v [].
Qed.

Lemma run_cons e word queries :
  run log1p e (word :: queries)
  = run log1p (snd (getCorrections log1p word e)) queries.
Proof. reflexivity. Qed.

(** Every engine that construction and queries lead to is well formed. *)
Lemma run_ok queries :
  forall e, index_ok e -> cache_ok e ->
            index_ok (run log1p e queries) /\ cache_ok (run log1p e queries).
Proof.
  induction queries as [|word queries IH]; intros e Hi Hc; [now split|].
  rewrite run_cons. apply IH.
  - now apply getCorrections_index_ok.
  - now apply getCorrections_cache_ok.
Qed.

Lemma reachable_ok options getMostPopular queries :
  let e := run log1p (new_AutoCorrectEngine options getMostPopular) queries in
  index_ok e /\ cache_ok e.
Proof.
  apply run_ok; [apply new_engine_index_ok|apply new_engine_cache_ok].
Qed.

(** In a well-formed engine a dictionary word is never a cache key. *)
Lemma dictionary_word_not_cached e k :
  cache_ok e -> map_has String.eqb k (dictionary e) = true ->
  map_get String.eqb k (cache e) = None.
Proof.
  intros [Hk _] Hd.
  destruct (map_get String.eqb k (cache e)) as [v|] eqn:Hc; [|reflexivity].
  apply map_get_In in Hc. apply Hk in Hc. congruence.
Qed.


(** *** Exact matches *)

(** C1. When the lower-case form of the input is a dictionary key, the call
    returns exactly one record, with distance 0 and confidence 1, and leaves
    the engine, its cache included, as it was. *)
Theorem exact_match_single (options : Options)
    (getMostPopular : N -> SourceOutcome) (queries : list string)
    (word : string) :
  let e := run log1p (new_AutoCorrectEngine options getMostPopular) queries in
  map_has String.eqb (toLowerCase word) (dictionary e) = true ->
  exists r,
    fst (getCorrections log1p word e) = [r] /\
    sug_distance r = 0%Q /\ sug_confidence r = Fin 1 /\
    cache (snd (getCorrections log1p word e)) = cache e /\
    snd (getCorrections log1p word e) = e.
Proof.
  intros e Hd.
  destruct (reachable_ok options getMostPopular queries) as [_ Hc].
  fold e in Hc.
  rewrite (getCorrections_exact word e
             (dictionary_word_not_cached e _ Hc Hd) Hd).
  eexists. repeat split.
Qed.

(** C9. For an input whose lower-case form is a dictionary key the one
    record carries the input as it was typed; for any other input every
    record carries a dictionary key, which is its own lower-case form. *)
Theorem suggestion_words (options : Options)
    (getMostPopular : N -> SourceOutcome) (queries : list string)
    (word : string) :
  let e := run log1p (new_AutoCorrectEngine options getMostPopular) queries in
  (map_has String.eqb (toLowerCase word) (dictionary e) = true ->
   exists r,
     fst (getCorrections log1p word e) = [r] /\ sug_word r = word) /\
  (map_has String.eqb (toLowerCase word) (dictionary e) = false ->
   forall r,
     In r (fst (getCorrections log1p word e)) ->
     In (sug_word r) (map_keys (dictionary e)) /\
     toLowerCase (sug_word r) = sug_word r /\
     sug_frequency r <> None).
Proof.
  intros e.
  destruct (reachable_ok options getMostPopular queries) as [Hi Hc].
  fold e in Hi, Hc. split.
  - intros Hd.
    rewrite (getCorrections_exact word e
               (dictionary_word_not_cached e _ Hc Hd) Hd).
    eexists. split; reflexivity.
  - intros Hd r Hr.
    assert (H : In (sug_word r) (map_keys (dictionary e)) /\
                sug_frequency r <> None).
    { destruct (map_get String.eqb (toLowerCase word) (cache e))
        as [v|] eqn:Hg.
      - rewrite (getCorrections_hit _ _ _ Hg) in Hr. cbn [fst] in Hr.
        apply map_get_In in Hg.
        destruct (cache_values e Hc _ _ Hg) as [_ Hv]. now apply Hv.
      - rewrite (getCorrections_miss _ _ Hg Hd) in Hr. cbn [fst] in Hr.
        now apply (rankedResults_words e (toLowerCase word)). }
    destruct H as [Hk Hf]. repeat split; trivial.
    unfold map_keys in Hk. apply in_map_iff in Hk.
    destruct Hk as ([w f] & Hw & Hin). simpl in Hw. subst w.
    pose proof (proj1 (Forall_forall _ _) (keys_a_z e Hi) _ Hin) as Ht.
    now apply test_a_z_sound in Ht.
Qed.

(** *** Repeated queries *)

Lemma cache_store_get cacheSize key value cache :
  map_get String.eqb key (cache_store cacheSize key value cache) = Some value.
Proof. unfold cache_store. apply map_set_get. Qed.

(** C7. Whatever the engine and the query, asking the same query again
    returns the same array and leaves the engine, hence the size of its
    cache, as the first call left it. *)
Theorem repeated_query (e : AutoCorrectEngine) (word : string) :
  let first := getCorrections log1p word e in
  let second := getCorrections log1p word (snd first) in
  fst second = fst first /\
  List.length (cache (snd second)) = List.length (cache (snd first)) /\
  snd second = snd first.
Proof.
  cbv zeta.
  destruct (map_get String.eqb (toLowerCase word) (cache e)) as [v|] eqn:Hc.
  { rewrite (getCorrections_hit _ _ _ Hc). cbn [fst snd].
    rewrite (getCorrections_hit _ _ _ Hc). now repeat split. }
  destruct (map_has String.eqb (toLowerCase word) (dictionary e)) eqn:Hd.
  { rewrite (getCorrections_exact _ _ Hc Hd). cbn [fst snd].
    rewrite (getCorrections_exact _ _ Hc Hd). now repeat split. }
  rewrite (getCorrections_miss _ _ Hc Hd). cbn [fst snd].
  erewrite getCorrections_hit; [now repeat split|].
  fields. apply cache_store_get.
Qed.

(** *** Misses *)

Lemma evict_oldest_get_None cacheSize key cache :
  map_get String.eqb key cache = None ->
  map_get String.eqb key (evict_oldest cacheSize cache) = None.
Proof.
  intros H. unfold evict_oldest.
  destruct (cacheSize <=? List.length cache); [|assumption].
  destruct (map_first_key cache); [|assumption].
  now apply map_delete_get_None.
Qed.

(** What a miss does to the cache, and what the same query gets next. *)
Lemma miss_store (e : AutoCorrectEngine) (word : string) :
  map_get String.eqb (toLowerCase word) (cache e) = None ->
  map_has String.eqb (toLowerCase word) (dictionary e) = false ->
  fst (getCorrections log1p word e)
    = rankedResults log1p e (toLowerCase word) /\
  cache (snd (getCorrections log1p word e)) =
    evict_oldest (cacheSize (config e)) (cache e)
    ++ [(toLowerCase word, rankedResults log1p e (toLowerCase word))] /\
  getCorrections log1p word (snd (getCorrections log1p word e))
    = (rankedResults log1p e (toLowerCase word),
       snd (getCorrections log1p word e)).
Proof.
  intros Hc Hd.
  rewrite (getCorrections_miss _ _ Hc Hd). cbn [fst snd]. fields.
  pose proof (evict_oldest_get_None (cacheSize (config e)) _ _ Hc) as He.
  split; [reflexivity|].
  split; [unfold cache_store; now apply map_set_absent|].
  apply getCorrections_hit. fields. apply cache_store_get.
Qed.

(** C10. A query that is neither in the cache nor in the dictionary is
    answered by the ranked results of the search, and these, empty or not,
    are stored under the lower-case query as the last entry of the cache,
    after the eviction; the same query asked again is answered from the
    cache, which stays as it is. *)
Theorem miss_is_cached (e : AutoCorrectEngine) (word : string) :
  map_get String.eqb (toLowerCase word) (cache e) = None ->
  map_has String.eqb (toLowerCase word) (dictionary e) = false ->
  let ranked := rankedResults log1p e (toLowerCase word) in
  let e' := snd (getCorrections log1p word e) in
  fst (getCorrections log1p word e) = ranked /\
  cache e' =
    evict_oldest (cacheSize (config e)) (cache e)
    ++ [(toLowerCase word, ranked)] /\
  map_get String.eqb (toLowerCase word) (cache e') = Some ranked /\
  List.length (cache e')
    = S (List.length (evict_oldest (cacheSize (config e)) (cache e))) /\
  getCorrections log1p word e' = (ranked, e').
Proof.
  intros Hc Hd ranked e'. subst ranked e'.
  destruct (miss_store e word Hc Hd) as (Hr & Hs & Hagain).
  split; [assumption|]. split; [assumption|].
  split; [|split; [|assumption]].
  - rewrite Hs. apply map_set_get_last.
    now apply evict_oldest_get_None.
  - rewrite Hs, length_app. simpl. lia.
Qed.

(** *** The size of the cache *)

(** With a capacity of at least one entry the bound holds. *)
Lemma cache_bound_positive (e : AutoCorrectEngine) (word : string) :
  1 <= cacheSize (config e) ->
  List.length (cache e) <= cacheSize (config e) ->
  List.length (cache (snd (getCorrections log1p word e)))
  <= cacheSize (config e).
Proof.
  intros Hpos Hlen.
  destruct (map_get String.eqb (toLowerCase word) (cache e)) as [v|] eqn:Hc.
  { now rewrite (getCorrections_hit _ _ _ Hc). }
  destruct (map_has String.eqb (toLowerCase word) (dictionary e)) eqn:Hd.
  { now rewrite (getCorrections_exact _ _ Hc Hd). }
  destruct (miss_store e word Hc Hd) as (_ & -> & _).
  rewrite length_app. cbn [List.length]. unfold evict_oldest.
  destruct (Nat.leb_spec (cacheSize (config e)) (List.length (cache e)))
    as [Hfull|Hroom]; [|lia].
  destruct (cache e) as [|[k0 v0] rest]; simpl in *; [lia|].
  rewrite String.eqb_refl. lia.
Qed.

Lemma run_cache_bound queries :
  forall e,
    1 <= cacheSize (config e) ->
    List.length (cache e) <= cacheSize (config e) ->
    List.length (cache (run log1p e queries)) <= cacheSize (config e).
Proof.
  induction queries as [|word queries IH]; intros e Hpos Hlen;
    [assumption|].
  rewrite run_cons.
  destruct (getCorrections_static word e) as (Hcfg & _).
  rewrite <- Hcfg. apply IH; rewrite Hcfg; [assumption|].
  now apply cache_bound_positive.
Qed.

(** With a full cache of at least one entry, the first entry, which is the
    one inserted earliest, leaves and the new one goes last. *)
Lemma cache_fifo (e : AutoCorrectEngine) (word : string) k0 v0 rest :
  cache e = (k0, v0) :: rest ->
  cacheSize (config e) <= List.length (cache e) ->
  map_get String.eqb (toLowerCase word) (cache e) = None ->
  map_has String.eqb (toLowerCase word) (dictionary e) = false ->
  cache (snd (getCorrections log1p word e))
  = rest ++ [(toLowerCase word, rankedResults log1p e (toLowerCase word))].
Proof.
  intros He Hfull Hc Hd.
  destruct (miss_store e word Hc Hd) as (_ & -> & _).
  unfold evict_oldest. apply Nat.leb_le in Hfull. rewrite Hfull, He.
  simpl. now rewrite String.eqb_refl.
Qed.

(** C3, at a capacity of 0: the engine is constructed with
    [cacheSize: 0], one unknown word is queried, and the cache then holds
    one entry, more than its capacity; that entry is the earliest inserted
    one, and it is present. *)
Theorem cache_exceeds_zero_capacity :
  let e := new_AutoCorrectEngine (mkOptions None None (Some 0))
             (fun _ => Returned ["the"; "of"; "and"]) in
  let e' := snd (getCorrections log1p "helo" e) in
  cacheSize (config e') = 0 /\
  List.length (cache e') = 1 /\
  map_keys (cache e') = ["helo"].
Proof.
  cbv zeta.
  set (e := new_AutoCorrectEngine (mkOptions None None (Some 0))
              (fun _ => Returned ["the"; "of"; "and"])).
  assert (Hcache : cache e = []) by (vm_compute; reflexivity).
  assert (Hsize : cacheSize (config e) = 0) by (vm_compute; reflexivity).
  assert (Hc : map_get String.eqb (toLowerCase "helo") (cache e) = None)
    by (rewrite Hcache; reflexivity).
  assert (Hd : map_has String.eqb (toLowerCase "helo") (dictionary e)
               = false) by (vm_compute; reflexivity).
  destruct (miss_store e "helo" Hc Hd) as (_ & Hstore & _).
  destruct (getCorrections_static "helo" e) as (Hcfg & _).
  rewrite Hcfg, Hstore, Hcache, Hsize. repeat split.
Qed.

(** *** Ranking *)

(** What the ranking needs of the logarithm: [log1p(0)] is 0 and [log1p] is
    positive on positive numbers. *)
Hypothesis log1p_zero : forall x : Q, (x == 0)%Q -> (log1p x == 0)%Q.
Hypothesis log1p_pos : forall x : Q, (0 < x)%Q -> (0 < log1p x)%Q.

Lemma Q_of_nat_pos (n : nat) :
  0 < n -> Qeq_bool (inject_Z (Z.of_nat n)) 0 = false.
Proof.
  intros H. apply Qeq_bool_false. intros E. apply Q_of_nat_eq0 in E. lia.
Qed.

Lemma length_pos (w : string) : w <> "" -> 0 < length w.
Proof. destruct w; [congruence|simpl; lia]. Qed.

(** The word source gave at least one word: every confidence is finite. *)
Lemma rank_finite maxFrequency lowerCaseWord candidate :
  (0 < maxFrequency)%Q -> cand_word candidate <> "" ->
  finite (rank log1p maxFrequency lowerCaseWord candidate).
Proof.
  intros Hm Hw. unfold finite, rank. cbv zeta. cbn [sug_confidence].
  assert (H1 : Qeq_bool (log1p maxFrequency) 0 = false).
  { apply Qeq_bool_false. intros E. pose proof (log1p_pos _ Hm). lra. }
  assert (H2 : Qeq_bool
                 (inject_Z (Z.of_nat
                    (Nat.max (length lowerCaseWord)
                       (length (cand_word candidate))))) 0 = false).
  { apply Q_of_nat_pos. pose proof (length_pos _ Hw). lia. }
  unfold js_div. rewrite H1, H2. simpl. eexists. reflexivity.
Qed.

(** The word source gave no word: every score is 0 and every confidence is
    NaN. *)
Lemma rank_NaN maxFrequency lowerCaseWord candidate :
  (maxFrequency == 0)%Q -> (cand_frequency candidate == 0)%Q ->
  sug_confidence (rank log1p maxFrequency lowerCaseWord candidate) = NaN.
Proof.
  intros Hm Hf. unfold rank. cbv zeta. cbn [sug_confidence].
  assert (H1 : Qeq_bool (log1p maxFrequency) 0 = true)
    by (apply Qeq_bool_iff; now apply log1p_zero).
  assert (H2 : Qsign (log1p (cand_frequency candidate)) = Eq).
  { unfold Qsign. apply Qeq_alt. now apply log1p_zero. }
  unfold js_div at 1. rewrite H1, H2. reflexivity.
Qed.

Lemma rankedResults_sorted e lowerCaseWord :
  index_ok e -> non_increasing (rankedResults log1p e lowerCaseWord).
Proof.
  intros Hok. destruct (scores_ok e Hok) as [Hpos|[Hz Hall]].
  - unfold rankedResults. apply firstn_sorted, js_sort_sorted_finite.
    apply Forall_forall. intros r Hr. apply in_map_iff in Hr.
    destruct Hr as (c & <- & Hc). apply rank_finite; [assumption|].
    apply (candidate_in_dictionary e lowerCaseWord c Hok) in Hc.
    pose proof (proj1 (Forall_forall _ _) (keys_a_z e Hok) _ Hc) as Ht.
    now apply test_a_z_sound in Ht.
  - apply all_NaN_sorted. apply Forall_forall. intros r Hr.
    apply rankedResults_In in Hr. destruct Hr as (c & Hc & ->).
    apply rank_NaN; [assumption|].
    apply (candidate_in_dictionary e lowerCaseWord c Hok) in Hc.
    exact (proj1 (Forall_forall _ _) Hall _ Hc).
Qed.

Lemma getCorrections_cache_sorted word e :
  index_ok e -> cache_sorted e ->
  cache_sorted (snd (getCorrections log1p word e)).
Proof.
  intros Hi Hs.
  destruct (map_get String.eqb (toLowerCase word) (cache e)) as [v|] eqn:Hc.
  { now rewrite (getCorrections_hit _ _ _ Hc). }
  destruct (map_has String.eqb (toLowerCase word) (dictionary e)) eqn:Hd.
  { now rewrite (getCorrections_exact _ _ Hc Hd). }
  rewrite (getCorrections_miss _ _ Hc Hd). cbn [snd].
  intros k v Hin. revert Hin. fields. intros Hin.
  apply cache_store_In in Hin. destruct Hin as [Hin|[= -> ->]].
  - now apply (Hs k v).
  - now apply rankedResults_sorted.
Qed.

Lemma run_cache_sorted queries :
  forall e, index_ok e -> cache_sorted e ->
            cache_sorted (run log1p e queries).
Proof.
  induction queries as [|word queries IH]; intros e Hi Hs; [assumption|].
  rewrite run_cons. apply IH.
  - now apply getCorrections_index_ok.
  - now apply getCorrections_cache_sorted.
Qed.

Lemma new_engine_cache_sorted options getMostPopular :
  cache_sorted (new_AutoCorrectEngine options getMostPopular).
Proof.
  intros k v Hin.
  destruct (getMostPopular (dictionarySize (mk_config options)))
    as [popularWords|message] eqn:Hsrc.
  - destruct (new_engine_returned _ _ _ Hsrc) as (w & f & it & _ & E).
    rewrite E in Hin. destruct Hin.
  - rewrite (new_engine_threw _ _ _ Hsrc) in Hin. destruct Hin.
Qed.

(** Whatever the options, the word source, the queries made so far and the
    query, the returned array has at most five records and no record is
    followed by one of greater confidence: on a cache hit, on an exact match
    and after a search.  When every confidence is NaN this says nothing of
    the order. *)
Lemma at_most_five_ranked (options : Options)
    (getMostPopular : N -> SourceOutcome) (queries : list string)
    (word : string) :
  let e := run log1p (new_AutoCorrectEngine options getMostPopular) queries in
  List.length (fst (getCorrections log1p word e)) <= 5 /\
  non_increasing (fst (getCorrections log1p word e)).
Proof.
  intros e.
  destruct (reachable_ok options getMostPopular queries) as [Hi Hc].
  fold e in Hi, Hc.
  assert (Hs : cache_sorted e).
  { apply run_cache_sorted;
      [apply new_engine_index_ok|apply new_engine_cache_sorted]. }
  destruct (map_get String.eqb (toLowerCase word) (cache e)) as [v|] eqn:Hg.
  { rewrite (getCorrections_hit _ _ _ Hg). cbn [fst].
    apply map_get_In in Hg. split.
    - now destruct (cache_values e Hc _ _ Hg).
    - now apply (Hs _ _ Hg). }
  destruct (map_has String.eqb (toLowerCase word) (dictionary e)) eqn:Hd.
  { rewrite (getCorrections_exact _ _ Hg Hd). cbn [fst]. split.
    - simpl. lia.
    - repeat constructor. }
  rewrite (getCorrections_miss _ _ Hg Hd). cbn [fst]. split.
  - apply rankedResults_length.
  - now apply rankedResults_sorted.
Qed.

End Queries.

(** *** The order of the returned records *)

Section Order.
Variable log1p : Q -> Q.



Hypothesis log1p_pos : forall x : Q, (0 < x)%Q -> (0 < log1p x)%Q.










Hypothesis log1p_zero : forall x : Q, (x == 0)%Q -> (log1p x == 0)%Q.

(** C2, without words from the source: the engine is constructed with
    [{ dictionarySize: 0 }], so the word source gives no word,
    [maxFrequency] and every score are 0 and the frequency score is
    [log1p(0) / log1p(0)].  The call for ["mache"] returns the two
    candidates in the order of the tree, each with confidence NaN, and the
    array is not in order of non-increasing confidence: [NaN >= NaN] is
    false. *)
Theorem unranked_without_words :
  let e := new_AutoCorrectEngine no_words_options sample_source in
  exists r1 r2,
    fst (getCorrections log1p "mache" e) = [r1; r2] /\
    sug_word r1 = "cache" /\ sug_word r2 = "machine" /\
    sug_confidence r1 = NaN /\ sug_confidence r2 = NaN /\
    ~ descending (fst (getCorrections log1p "mache" e)).
Proof.
  intros e.
  assert (Hc : map_get String.eqb (toLowerCase "mache") (cache e) = None)
    by (vm_compute; reflexivity).
  assert (Hd : map_has String.eqb (toLowerCase "mache") (dictionary e)
               = false) by (vm_compute; reflexivity).
  assert (Hs : _searchBKTree (bkTree e) (toLowerCase "mache")
                 (maxEditDistance (config e))
               = [mkCandidate "cache" (4 # 2) (0 # 10);
                  mkCandidate "machine" (4 # 2) (0 # 10)])
    by (vm_compute; reflexivity).
  assert (Hm : (maxFrequency e == 0)%Q) by (vm_compute; reflexivity).
  pose proof (rank_NaN log1p log1p_zero (maxFrequency e) (toLowerCase "mache")
                (mkCandidate "cache" (4 # 2) (0 # 10)) Hm eq_refl) as H1.
  pose proof (rank_NaN log1p log1p_zero (maxFrequency e) (toLowerCase "mache")
                (mkCandidate "machine" (4 # 2) (0 # 10)) Hm eq_refl) as H2.
  rewrite (getCorrections_miss _ _ _ Hc Hd). cbn [fst].
  unfold rankedResults. rewrite Hs.
  cbn [map js_sort fold_right sort_insert].
  unfold by_confidence. rewrite H1, H2.
  cbn [js_sub js_neg js_add js_lt firstn].
  eexists _, _. split; [reflexivity|].
  repeat split; trivial.
  intros Hdesc. apply StronglySorted_inv in Hdesc.
  destruct Hdesc as [_ Hfirst]. apply Forall_inv in Hfirst.
  unfold at_least in Hfirst. rewrite H1, H2 in Hfirst. discriminate Hfirst.
Qed.

End Order.

(** * Instances *)

Lemma log1p_approx_zero (x : Q) : (x == 0)%Q -> (log1p_approx x == 0)%Q.
Proof. intros H. unfold log1p_approx. rewrite H. reflexivity. Qed.

Lemma log1p_approx_pos (x : Q) : (0 < x)%Q -> (0 < log1p_approx x)%Q.
Proof.
  intros H. unfold log1p_approx, Qdiv.
  apply Qmult_lt_0_compat; [lra|]. apply Qinv_lt_0_compat. lra.
Qed.

(** C1 on the sample engine: ["HeLLo"] after two other queries. *)
Lemma exact_match_single_witness :
  let e := run log1p_approx
             (new_AutoCorrectEngine default_options sample_source)
             ["helo"; "shel"] in
  exists r,
    fst (getCorrections log1p_approx "HeLLo" e) = [r] /\
    sug_distance r = 0%Q /\ sug_confidence r = Fin 1 /\
    cache (snd (getCorrections log1p_approx "HeLLo" e)) = cache e /\
    snd (getCorrections log1p_approx "HeLLo" e) = e.
Proof.
  apply (exact_match_single log1p_approx default_options sample_source
           ["helo"; "shel"] "HeLLo").
  vm_compute. reflexivity.
Defined.

(** C2 with the approximant for the logarithm, which is 0 at 0. *)
Lemma unranked_without_words_witness :
  let e := new_AutoCorrectEngine no_words_options sample_source in
  exists r1 r2,
    fst (getCorrections log1p_approx "mache" e) = [r1; r2] /\
    sug_word r1 = "cache" /\ sug_word r2 = "machine" /\
    sug_confidence r1 = NaN /\ sug_confidence r2 = NaN /\
    ~ descending (fst (getCorrections log1p_approx "mache" e)).
Proof.
  exact (unranked_without_words log1p_approx log1p_approx_zero).
Defined.


(** C5 on the sample tree: ["held"] is at distance 1 from the root
    ["hell"], where ["help"] is stored, so ["help"] is visited. *)
Lemma insertIntoBKTree_steps_witness :
  let newNode := new_BKNode "held" 4 in
  let node := mkBKNode "help" 2 [] in
  let d := _sift3Distance (word node) (word newNode) in
  ((d == 0)%Q ->
     _insertIntoBKTree node newNode = node /\
     _insertIntoBKTree sample_tree newNode = sample_tree) /\
  (forall childNode,
     ~ (d == 0)%Q ->
     map_get Qeq_bool d (children node) = Some childNode ->
     visited newNode sample_tree childNode /\
     _insertIntoBKTree node newNode =
     mkBKNode (word node) (frequency node)
       (map_set Qeq_bool d (_insertIntoBKTree childNode newNode)
          (children node))) /\
  (~ (d == 0)%Q ->
     map_get Qeq_bool d (children node) = None ->
     _insertIntoBKTree node newNode =
     mkBKNode (word node) (frequency node)
       (children node ++ [(d, newNode)])).
Proof.
  apply (insertIntoBKTree_steps sample_tree (new_BKNode "held" 4)
           (mkBKNode "help" 2 [])).
  apply (visited_child _ _ sample_tree); [apply visited_root| |].
  - vm_compute. discriminate.
  - vm_compute. reflexivity.
Defined.

(** C9 on the sample engine: an exact match and a search. *)
Lemma suggestion_words_witness :
  let e := run log1p_approx
             (new_AutoCorrectEngine default_options sample_source)
             ["helo"] in
  (exists r,
     fst (getCorrections log1p_approx "HeLLo" e) = [r] /\
     sug_word r = "HeLLo") /\
  (forall r,
     In r (fst (getCorrections log1p_approx "Shel" e)) ->
     In (sug_word r) (map_keys (dictionary e)) /\
     toLowerCase (sug_word r) = sug_word r /\
     sug_frequency r <> None).
Proof.
  intros e.
  assert (Hexact : map_has String.eqb (toLowerCase "HeLLo") (dictionary e)
                   = true) by (vm_compute; reflexivity).
  assert (Hother : map_has String.eqb (toLowerCase "Shel") (dictionary e)
                   = false) by (vm_compute; reflexivity).
  split.
  - exact (proj1 (suggestion_words log1p_approx default_options
                    sample_source ["helo"] "HeLLo") Hexact).
  - exact (proj2 (suggestion_words log1p_approx default_options
                    sample_source ["helo"] "Shel") Hother).
Defined.

(** C10 on an engine whose word source threw: the search has no candidate,
    and the empty array is stored and served again. *)
Lemma miss_is_cached_witness :
  let e := new_AutoCorrectEngine default_options failing_source in
  let e' := snd (getCorrections log1p_approx "Xyzzy" e) in
  fst (getCorrections log1p_approx "Xyzzy" e) = [] /\
  cache e' = [("xyzzy", [])] /\
  map_get String.eqb "xyzzy" (cache e') = Some [] /\
  List.length (cache e') = 1 /\
  getCorrections log1p_approx "Xyzzy" e' = ([], e').
Proof.
  exact (miss_is_cached log1p_approx
           (new_AutoCorrectEngine default_options failing_source) "Xyzzy"
           eq_refl eq_refl).
Defined.

(** * Further properties *)

(** ** The distance metric, continued *)

(** X1. The distance is 0 exactly between equal strings: the insertion into
    the tree, which drops a word at distance 0 from a node, drops no word
    other than the node's own. *)
Theorem sift3Distance_zero_iff (a b : string) :
  (_sift3Distance a b == 0)%Q <-> a = b.
Proof.
  split.
  - apply sift3_zero.
  - intros ->. apply sift3_refl.
Qed.

Lemma Q_of_nat_nonneg (n : nat) : (0 <= inject_Z (Z.of_nat n))%Q.
Proof. apply (Q_of_nat_le 0). lia. Qed.

Lemma sift3_loop_nonempty_value maxOffset a b :
  a <> "" -> b <> "" ->
  (sift3 maxOffset a b ==
   inject_Z (Z.of_nat (length a + length b)) / 2
   - inject_Z (Z.of_nat (sift3_loop maxOffset a b 0 0 0 0)))%Q.
Proof.
  intros Ha Hb. unfold sift3.
  destruct a; [congruence|]. destruct b; [congruence|]. reflexivity.
Qed.

(** The distance lies between half the difference of the lengths and the
    greater length. *)
Lemma sift3Distance_range (a b : string) :
  (inject_Z (Z.of_nat (Nat.max (length a) (length b)
                       - Nat.min (length a) (length b))) / 2
   <= _sift3Distance a b)%Q /\
  (_sift3Distance a b
   <= inject_Z (Z.of_nat (Nat.max (length a) (length b))))%Q.
Proof.
  unfold _sift3Distance.
  destruct a as [|x a].
  { rewrite sift3_empty_l. simpl length. rewrite Nat.max_0_l, Nat.min_0_l,
      Nat.sub_0_r. rewrite Qhalf. split; [|apply Qle_refl].
    pose proof (Q_of_nat_nonneg (length b)) as H.
    revert H. generalize (inject_Z (Z.of_nat (length b))).
    intros q H. lra. }
  destruct b as [|y b].
  { rewrite sift3_empty_r. rewrite Nat.max_0_r, Nat.min_0_r, Nat.sub_0_r.
    rewrite Qhalf. split; [|apply Qle_refl].
    pose proof (Q_of_nat_nonneg (length (String x a))) as H.
    revert H. generalize (inject_Z (Z.of_nat (length (String x a)))).
    intros q H. lra. }
  rewrite sift3_loop_nonempty_value by discriminate.
  set (la := length (String x a)). set (lb := length (String y b)).
  pose proof (sift3_loop_upper 5 (String x a) (String y b) la 0 0 0 0
                ltac:(lia)) as Hu0.
  fold la lb in Hu0.
  set (L := sift3_loop 5 (String x a) (String y b) 0 0 0 0) in *.
  assert (Hu : L <= Nat.min la lb) by lia. clear Hu0.
  assert (Hmm : Nat.max la lb - Nat.min la lb + 2 * Nat.min la lb
                = la + lb) by lia.
  pose proof (Q_of_nat_le _ _ Hu) as HL.
  pose proof (Q_of_nat_nonneg L) as HL0.
  pose proof (Q_of_nat_le (la + lb) (2 * Nat.max la lb) ltac:(lia)) as Hmax.
  rewrite <- Hmm. rewrite !Q_of_nat_add.
  assert (H2 : (inject_Z (Z.of_nat (2 * Nat.min la lb))
                == 2 * inject_Z (Z.of_nat (Nat.min la lb)))%Q).
  { rewrite Nat2Z.inj_mul, inject_Z_mult. reflexivity. }
  assert (H3 : (inject_Z (Z.of_nat (2 * Nat.max la lb))
                == 2 * inject_Z (Z.of_nat (Nat.max la lb)))%Q).
  { rewrite Nat2Z.inj_mul, inject_Z_mult. reflexivity. }
  rewrite <- Hmm in Hmax. rewrite !Q_of_nat_add in Hmax.
  rewrite H2 in *. rewrite H3 in Hmax. rewrite !Qhalf.
  revert HL HL0 Hmax.
  generalize (inject_Z (Z.of_nat L)).
  generalize (inject_Z (Z.of_nat (Nat.min la lb))).
  generalize (inject_Z (Z.of_nat (Nat.max la lb - Nat.min la lb))).
  generalize (inject_Z (Z.of_nat (Nat.max la lb))).
  intros M D m l HL HL0 Hmax. split; lra.
Qed.

(** The confidence that [rank] gives is the blend of the two scores. *)
Lemma rank_confidence log1p maxFrequency lowerCaseWord candidate :
  sug_confidence (rank log1p maxFrequency lowerCaseWord candidate)
  = js_add (js_mul (Fin (7 # 10)) (freqScore log1p maxFrequency candidate))
           (js_mul (Fin (3 # 10)) (distScore lowerCaseWord candidate)).
Proof. reflexivity. Qed.

(** A distance between 0 and the greater length gives a distance score
    between 0 and 1. *)
Lemma distScore_unit (lowerCaseWord : string) (candidate : Candidate) :
  cand_word candidate <> "" ->
  (0 <= cand_distance candidate)%Q ->
  (cand_distance candidate
   <= inject_Z (Z.of_nat (Nat.max (length lowerCaseWord)
                            (length (cand_word candidate)))))%Q ->
  exists q, distScore lowerCaseWord candidate = Fin q /\
            (0 <= q)%Q /\ (q <= 1)%Q.
Proof.
  intros Hw H0 Hmax. unfold distScore.
  set (m := inject_Z (Z.of_nat (Nat.max (length lowerCaseWord)
                                  (length (cand_word candidate))))) in *.
  assert (Hm : (0 < m)%Q).
  { unfold m. apply (Qlt_le_trans _ (inject_Z (Z.of_nat 1))); [reflexivity|].
    apply Q_of_nat_le. pose proof (length_pos _ Hw). lia. }
  assert (E : Qeq_bool m 0 = false).
  { apply Qeq_bool_false. intros E. rewrite E in Hm. discriminate Hm. }
  cbn [js_div]. rewrite E. cbn [js_sub js_neg js_add].
  eexists. split; [reflexivity|].
  assert (H1 : (0 <= cand_distance candidate / m)%Q).
  { apply Qle_shift_div_l; [assumption|]. now rewrite Qmult_0_l. }
  assert (H2 : (cand_distance candidate / m <= 1)%Q).
  { apply Qle_shift_div_r; [assumption|]. now rewrite Qmult_1_l. }
  revert H1 H2. generalize (cand_distance candidate / m)%Q. intros x H1 H2.
  split; lra.
Qed.

(** X2. The distance lies between half the difference of the lengths and
    the greater length; so for every tree node with a non-empty word [a]
    and every query [b], the distance score that the ranking gives the
    node's candidate, 1 minus the ratio of the distance to the greater
    length, is a number between 0 and 1: it is never negative. *)
Theorem sift3Distance_bounds (a b : string) :
  (inject_Z (Z.of_nat (Nat.max (length a) (length b)
                       - Nat.min (length a) (length b))) / 2
   <= _sift3Distance a b)%Q /\
  (_sift3Distance a b
   <= inject_Z (Z.of_nat (Nat.max (length a) (length b))))%Q /\
  forall node : BKNode,
    word node = a -> a <> "" ->
    exists q, distScore b (candidate_of b node) = Fin q /\
              (0 <= q)%Q /\ (q <= 1)%Q.
Proof.
  destruct (sift3Distance_range a b) as [Hlo Hhi].
  repeat split; trivial.
  intros node <- Hw.
  apply distScore_unit; cbn [candidate_of cand_word cand_distance]; trivial.
  - apply sift3_nonneg.
  - now rewrite Nat.max_comm.
Qed.

Lemma charAt_append_l (a b : string) (k : nat) :
  k < length a -> charAt (String.append a b) k = charAt a k.
Proof.
  revert k. induction a as [|x a IH]; intros k Hk; simpl in Hk; [lia|].
  destruct k as [|k].
  - simpl String.append. now rewrite !charAt_cons_0.
  - simpl String.append. rewrite !charAt_cons_S. apply IH. lia.
Qed.

Lemma length_append (a b : string) :
  length (String.append a b) = length a + length b.
Proof. induction a as [|x a IH]; simpl; [reflexivity|]. now rewrite IH. Qed.

(** While the two strings agree position by position the offsets stay at 0
    and every iteration credits a match. *)
Lemma sift3_loop_agree maxOffset s1 s2 n :
  forall c lcs,
    Nat.min (length s1) (length s2) - c <= n ->
    (forall k, c <= k < Nat.min (length s1) (length s2) ->
               charAt s1 k = charAt s2 k) ->
    sift3_loop maxOffset s1 s2 c 0 0 lcs
    = lcs + (Nat.min (length s1) (length s2) - c).
Proof.
  induction n as [|n IH]; intros c lcs Hn Hk;
    rewrite sift3_loop_step; rewrite !Nat.add_0_r;
    destruct (Nat.ltb_spec c (length s1)) as [H1|H1];
    destruct (Nat.ltb_spec c (length s2)) as [H2|H2];
    cbn [andb]; try lia.
  rewrite (Hk c) by lia. rewrite String.eqb_refl.
  rewrite IH; [lia|lia|]. intros k Hc. apply Hk. lia.
Qed.

Lemma half_of_sum (la lb : nat) :
  (inject_Z (Z.of_nat (la + (la + lb))) / 2 - inject_Z (Z.of_nat la)
   == inject_Z (Z.of_nat lb) / 2)%Q.
Proof. rewrite !Q_of_nat_add. field. Qed.

(** X3. From a non-empty string to the same string with [k] more
    characters at the end, in either order, the distance is [k / 2]. *)
Theorem sift3Distance_extension (a b : string) :
  a <> "" ->
  (_sift3Distance a (String.append a b)
   == inject_Z (Z.of_nat (length b)) / 2)%Q /\
  (_sift3Distance (String.append a b) a
   == inject_Z (Z.of_nat (length b)) / 2)%Q.
Proof.
  intros Ha.
  assert (Hab : String.append a b <> "") by (destruct a; [congruence|discriminate]).
  unfold _sift3Distance. split.
  - rewrite sift3_loop_nonempty_value by assumption.
    rewrite (sift3_loop_agree 5 a (String.append a b) (length a)).
    + rewrite length_append.
      replace (0 + (Nat.min (length a) (length a + length b) - 0))
        with (length a) by lia.
      apply half_of_sum.
    + lia.
    + intros k Hk. symmetry. apply charAt_append_l. lia.
  - rewrite sift3_loop_nonempty_value by assumption.
    rewrite (sift3_loop_agree 5 (String.append a b) a (length a)).
    + rewrite length_append.
      replace (0 + (Nat.min (length a + length b) (length a) - 0))
        with (length a) by lia.
      replace (length a + length b + length a)
        with (length a + (length a + length b)) by lia.
      apply half_of_sum.
    + rewrite length_append. lia.
    + intros k Hk. apply charAt_append_l. rewrite length_append in Hk. lia.
Qed.

Lemma sift3Distance_extension_witness :
  (_sift3Distance "hell" (String.append "hell" "o")
   == inject_Z (Z.of_nat (length "o")) / 2)%Q /\
  (_sift3Distance (String.append "hell" "o") "hell"
   == inject_Z (Z.of_nat (length "o")) / 2)%Q.
Proof. apply (sift3Distance_extension "hell" "o"). discriminate. Defined.

(** X4. The distance is not symmetric: from ["ba"] to ["aba"] it is 5/2,
    from ["aba"] to ["ba"] it is 3/2. *)
Theorem sift3Distance_not_symmetric :
  ~ (forall a b : string, (_sift3Distance a b == _sift3Distance b a)%Q).
Proof.
  intros H. specialize (H "ba" "aba"). vm_compute in H. discriminate H.
Qed.

(** ** The tree, continued *)

Lemma children_entries_app ch1 ch2 :
  children_entries (ch1 ++ ch2) = children_entries ch1 ++ children_entries ch2.
Proof. unfold children_entries. apply flat_map_app. Qed.

Lemma children_entries_set_perm (d : Q) (c c' : BKNode)
    (ch : list (Q * BKNode)) (extra : list (string * Q)) :
  map_get Qeq_bool d ch = Some c ->
  Permutation (tree_entries c') (tree_entries c ++ extra) ->
  Permutation (children_entries (map_set Qeq_bool d c' ch))
              (children_entries ch ++ extra).
Proof.
  intros Hget Hp. unfold children_entries.
  induction ch as [|[k c0] ch IH]; simpl in *; [discriminate|].
  destruct (Qeq_bool k d); simpl.
  - injection Hget as ->. rewrite Hp. rewrite <- !app_assoc.
    apply Permutation_app_head. apply Permutation_app_comm.
  - rewrite (IH Hget). now rewrite app_assoc.
Qed.

(** Insertion of a node whose word is not in the tree loses no entry and
    adds those of the new node. *)
Lemma insert_entries_perm node newNode :
  (forall w, In w (tree_words node) -> w <> word newNode) ->
  Permutation (tree_entries (_insertIntoBKTree node newNode))
              (tree_entries node ++ tree_entries newNode).
Proof.
  funelim (_insertIntoBKTree node newNode); intros Hfresh.
  - exfalso. apply (Hfresh (word node)).
    + unfold tree_words. rewrite tree_entries_eq. now left.
    + apply (sift3_zero 5). now apply Qeq_bool_iff.
  - rewrite (tree_entries_eq (mkBKNode _ _ _)), (tree_entries_eq node).
    cbn [word frequency children]. simpl app. apply perm_skip.
    match goal with Hg : map_get _ _ _ = Some _ |- _ =>
      apply (children_entries_set_perm _ _ _ _ _ Hg);
      destruct (map_get_Q_In _ _ _ Hg) as (k & Hk) end.
    match goal with IH : _ -> Permutation _ _ |- _ => apply IH end.
    intros w Hw. apply Hfresh. unfold tree_words in *.
    apply in_map_iff in Hw. destruct Hw as (x & <- & Hx).
    apply in_map. rewrite tree_entries_eq. right.
    now apply (child_entries_incl k childNode).
  - match goal with Hg : map_get _ _ _ = None |- _ =>
      rewrite (map_set_absent _ _ _ _ Hg) end.
    rewrite (tree_entries_eq (mkBKNode _ _ _)), (tree_entries_eq node).
    cbn [word frequency children]. simpl app. apply perm_skip.
    rewrite children_entries_app. apply Permutation_app_head.
    unfold children_entries. simpl. now rewrite app_nil_r.
Qed.

(** X5. Inserting a word that the tree does not hold loses no entry of the
    tree and adds the new word with its frequency, once: the entries after
    the insertion are those before it and the new one. *)
Theorem insert_fresh_word (node : BKNode) (w : string) (f : Q) :
  (forall x, In x (tree_words node) -> x <> w) ->
  Permutation (tree_entries (_insertIntoBKTree node (new_BKNode w f)))
              ((w, f) :: tree_entries node) /\
  node_count (_insertIntoBKTree node (new_BKNode w f)) = S (node_count node).
Proof.
  intros Hfresh. split.
  - rewrite (insert_entries_perm node (new_BKNode w f) Hfresh).
    simpl. rewrite Permutation_app_comm. reflexivity.
  - rewrite (insert_count node (new_BKNode w f) Hfresh). simpl. lia.
Qed.

Lemma insert_fresh_word_witness :
  Permutation (tree_entries (_insertIntoBKTree sample_tree
                               (new_BKNode "held" 4)))
              (("held", 4%Q) :: tree_entries sample_tree) /\
  node_count (_insertIntoBKTree sample_tree (new_BKNode "held" 4))
  = S (node_count sample_tree).
Proof.
  apply (insert_fresh_word sample_tree "held" 4).
  intros x Hx. vm_compute in Hx.
  destruct Hx as [<-|[<-|[<-|[<-|[]]]]]; discriminate.
Defined.

Lemma map_get_Q_key (d : Q) (c : BKNode) (ch : list (Q * BKNode)) :
  map_get Qeq_bool d ch = Some c ->
  exists k, In (k, c) ch /\ Qeq_bool k d = true.
Proof.
  induction ch as [|[k c'] ch IH]; simpl; [discriminate|].
  destruct (Qeq_bool k d) eqn:E.
  - intros [= ->]. exists k. split; [now left|assumption].
  - intros H. destruct (IH H) as (k' & Hk & Hq). exists k'.
    split; [now right|assumption].
Qed.

Lemma map_set_Q_In (d : Q) (c' : BKNode) (ch : list (Q * BKNode))
    (k : Q) (c : BKNode) :
  In (k, c) (map_set Qeq_bool d c' ch) ->
  In (k, c) ch \/
  (c = c' /\
   ((exists c0, In (k, c0) ch /\ Qeq_bool k d = true /\
                map_get Qeq_bool d ch = Some c0) \/
    (k = d /\ map_get Qeq_bool d ch = None))).
Proof.
  induction ch as [|[k1 c1] ch IH]; simpl.
  - intros [[= <- <-]|[]]. right. split; [reflexivity|]. now right.
  - destruct (Qeq_bool k1 d) eqn:E; simpl.
    + intros [[= <- <-]|H]; [|left; now right].
      right. split; [reflexivity|]. left. exists c1.
      repeat split; trivial. now left.
    + intros [[= <- <-]|H]; [left; now left|].
      destruct (IH H) as [H'|(-> & [(c0 & Hc0 & Hq & Hg)|(-> & Hg)])].
      * left. now right.
      * right. split; [reflexivity|]. left. exists c0.
        repeat split; trivial. now right.
      * right. split; [reflexivity|]. now right.
Qed.

Lemma bk_wf_children node :
  bk_wf node ->
  forall k c, In (k, c) (children node) ->
              bk_wf c /\
              forall x, In x (tree_words c) ->
                        (_sift3Distance (word node) x == k)%Q.
Proof. intros H. now destruct H. Qed.

Lemma bk_wf_intro node :
  (forall k c, In (k, c) (children node) ->
               bk_wf c /\
               forall x, In x (tree_words c) ->
                         (_sift3Distance (word node) x == k)%Q) ->
  bk_wf node.
Proof. destruct node. apply bk_wf_node. Qed.

Lemma tree_words_leaf newNode :
  children newNode = [] -> tree_words newNode = [word newNode].
Proof.
  intros H. unfold tree_words. rewrite tree_entries_eq, H. reflexivity.
Qed.

Lemma insert_words node newNode x :
  In x (tree_words (_insertIntoBKTree node newNode)) ->
  In x (tree_words node) \/ In x (tree_words newNode).
Proof.
  unfold tree_words. intros H. apply in_map_iff in H.
  destruct H as (e & <- & He). apply insert_entries in He.
  destruct He; [left|right]; now apply in_map.
Qed.

(** Insertion of a leaf keeps the shape of the tree. *)
Lemma insert_bk_wf node newNode :
  children newNode = [] -> bk_wf node ->
  bk_wf (_insertIntoBKTree node newNode).
Proof.
  funelim (_insertIntoBKTree node newNode); intros Hleaf Hwf.
  - assumption.
  - apply bk_wf_intro. cbn [children word]. intros k c Hin.
    apply map_set_Q_In in Hin.
    destruct Hin as [Hin|(-> & [(c0 & Hc0 & Hq & Hg)|(-> & Hg)])].
    + now apply (bk_wf_children node Hwf).
    + match goal with Hg' : map_get _ _ _ = Some childNode |- _ =>
        rewrite Hg' in Hg end. injection Hg as <-.
      destruct (bk_wf_children node Hwf k childNode Hc0) as [Hc Hd].
      split.
      * match goal with IH : _ -> _ -> bk_wf _ |- _ => now apply IH end.
      * intros x Hx. apply insert_words in Hx. destruct Hx as [Hx|Hx].
        -- now apply Hd.
        -- rewrite (tree_words_leaf newNode Hleaf) in Hx.
           destruct Hx as [<-|[]]. apply Qeq_bool_iff in Hq.
           now symmetry.
    + match goal with Hg' : map_get _ _ _ = Some childNode |- _ =>
        rewrite Hg' in Hg end. discriminate.
  - apply bk_wf_intro. cbn [children word]. intros k c Hin.
    apply map_set_Q_In in Hin.
    destruct Hin as [Hin|(-> & [(c0 & Hc0 & Hq & Hg)|(-> & Hg)])].
    + now apply (bk_wf_children node Hwf).
    + match goal with Hg' : map_get _ _ _ = None |- _ =>
        rewrite Hg' in Hg end. discriminate.
    + split.
      * apply bk_wf_intro. rewrite Hleaf. intros k c [].
      * intros x Hx. rewrite (tree_words_leaf newNode Hleaf) in Hx.
        destruct Hx as [<-|[]]. reflexivity.
Qed.

Lemma child_count_le (k : Q) (c : BKNode) (ch : list (Q * BKNode)) :
  In (k, c) ch -> node_count c <= children_count ch.
Proof.
  unfold children_count. induction ch as [|[k' c'] ch IH]; simpl; [tauto|].
  intros [[= -> ->]|H]; [lia|]. specialize (IH H). lia.
Qed.

(** In a tree of that shape the search for a word of the tree, with a
    radius that is not negative, takes the node of that word from the
    queue. *)
Lemma self_search_dequeues (maxDistance : Q) (w : string) (f : Q) n :
  (0 <= maxDistance)%Q ->
  forall root,
    node_count root <= n -> bk_wf root ->
    In (w, f) (tree_entries root) ->
    exists node,
      dequeued w maxDistance root node /\ word node = w /\ frequency node = f.
Proof.
  intros Hm. induction n as [|n IH]; intros root Hn Hwf Hin.
  { rewrite node_count_eq in Hn. lia. }
  rewrite tree_entries_eq in Hin. destruct Hin as [[= <- <-]|Hin].
  { exists root. repeat split. constructor. }
  unfold children_entries in Hin. apply in_flat_map in Hin.
  destruct Hin as ([k c] & Hc & Hw). simpl in Hw.
  destruct (bk_wf_children root Hwf k c Hc) as [Hcwf Hd].
  pose proof (child_count_le k c _ Hc) as Hle.
  rewrite node_count_eq in Hn.
  destruct (IH c ltac:(lia) Hcwf Hw) as (node & Hdq & Hword & Hfreq).
  exists node. repeat split; trivial.
  apply (dequeued_trans _ _ root c node); [|assumption].
  assert (Hk : (_sift3Distance (word root) w == k)%Q).
  { apply Hd. unfold tree_words. apply in_map_iff. now exists (w, f). }
  apply (dequeued_child _ _ _ root c k); [constructor|assumption| |];
    rewrite Hk; lra.
Qed.

Lemma build_fold_perm (it : list (string * Q)) :
  forall bkTree,
    NoDup (map_keys it) ->
    (forall w, In w (tree_words bkTree) -> ~ In w (map_keys it)) ->
    Permutation (tree_entries (fold_left build_step it bkTree))
                (tree_entries bkTree ++ it).
Proof.
  induction it as [|[w f] it IH]; intros t Hn Hfresh; simpl.
  - now rewrite app_nil_r.
  - unfold map_keys in Hn. simpl in Hn. apply NoDup_cons_iff in Hn.
    destruct Hn as [Hw Hn].
    assert (Hp : Permutation (tree_entries (build_step t (w, f)))
                             (tree_entries t ++ [(w, f)])).
    { unfold build_step. apply insert_entries_perm.
      simpl. intros x Hx ->. apply (Hfresh w Hx). now left. }
    rewrite (IH (build_step t (w, f)) Hn).
    + rewrite Hp. now rewrite <- app_assoc.
    + intros x Hx Hin. unfold tree_words in Hx.
      apply in_map_iff in Hx. destruct Hx as (e & <- & He).
      apply (Permutation_in _ Hp) in He. apply in_app_or in He.
      destruct He as [He|[<-|[]]].
      * apply (Hfresh (fst e)); [unfold tree_words; now apply in_map|].
        now right.
      * now apply Hw.
Qed.

Lemma build_fold_bk_wf (it : list (string * Q)) :
  forall bkTree, bk_wf bkTree -> bk_wf (fold_left build_step it bkTree).
Proof.
  induction it as [|[w f] it IH]; intros t Hwf; simpl; [assumption|].
  apply IH. unfold build_step. now apply insert_bk_wf.
Qed.

(** The tree of a constructed engine: it has the shape that insertion
    gives, and its entries are the dictionary's. *)
Lemma new_engine_tree options getMostPopular :
  let e := new_AutoCorrectEngine options getMostPopular in
  (dictionary e = [] /\ bkTree e = None) \/
  (exists root,
     bkTree e = Some root /\ bk_wf root /\
     Permutation (tree_entries root) (dictionary e)).
Proof.
  cbv zeta.
  destruct (getMostPopular (dictionarySize (mk_config options)))
    as [popularWords|message] eqn:Hsrc.
  - right. destruct (new_engine_returned _ _ _ Hsrc)
      as (w & f & it & Hd & ->). fields.
    destruct (loaded_dictionary_inv popularWords) as (Hn & _).
    rewrite Hd in *. unfold map_keys in Hn. simpl in Hn.
    apply NoDup_cons_iff in Hn. destruct Hn as [Hw Hn].
    exists (fold_left build_step it (new_BKNode w f)).
    split; [reflexivity|]. split.
    + apply build_fold_bk_wf. apply bk_wf_intro. intros k c [].
    + rewrite build_fold_perm; [reflexivity|assumption|].
      intros x [<-|[]]. exact Hw.
  - left. rewrite (new_engine_threw _ _ _ Hsrc). now split.
Qed.

Lemma node_count_entries_le n :
  forall root, node_count root <= n ->
               node_count root = List.length (tree_entries root).
Proof.
  induction n as [|n IH]; intros root Hn;
    rewrite node_count_eq in Hn; [lia|].
  rewrite node_count_eq, tree_entries_eq. cbn [List.length]. f_equal.
  assert (Hch : children_count (children root) <= n) by lia. clear Hn.
  revert Hch. unfold children_count, children_entries.
  induction (children root) as [|[k c] ch IHch]; simpl; [reflexivity|].
  intros Hle. rewrite length_app.
  rewrite <- (IH c) by lia. rewrite IHch by lia. reflexivity.
Qed.

Lemma node_count_entries root :
  node_count root = List.length (tree_entries root).
Proof. now apply (node_count_entries_le (node_count root)). Qed.

(** X6. In a constructed engine the tree holds exactly the entries of the
    dictionary, each once: no dictionary word is dropped as a duplicate of
    another, and the tree is absent only when the dictionary is empty. *)
Theorem built_tree_holds_dictionary (options : Options)
    (getMostPopular : N -> SourceOutcome) :
  let e := new_AutoCorrectEngine options getMostPopular in
  match bkTree e with
  | Some root =>
      Permutation (tree_entries root) (dictionary e) /\
      node_count root = List.length (dictionary e)
  | None => dictionary e = []
  end.
Proof.
  cbv zeta.
  destruct (new_engine_tree options getMostPopular)
    as [[Hd ->]|(root & -> & _ & Hp)]; [assumption|].
  split; [assumption|].
  rewrite <- (Permutation_length Hp). apply node_count_entries.
Qed.

(** X7. Insertion and search agree: in a constructed engine the search for
    a dictionary word, with any radius that is not negative, returns that
    word with its frequency at distance 0. *)
Theorem dictionary_word_found (options : Options)
    (getMostPopular : N -> SourceOutcome) (w : string) (f : Q)
    (maxDistance : Q) :
  let e := new_AutoCorrectEngine options getMostPopular in
  In (w, f) (dictionary e) ->
  (0 <= maxDistance)%Q ->
  exists r,
    In r (_searchBKTree (bkTree e) w maxDistance) /\
    cand_word r = w /\ cand_frequency r = f /\ (cand_distance r == 0)%Q.
Proof.
  cbv zeta. intros Hin Hm.
  destruct (new_engine_tree options getMostPopular)
    as [[Hd _]|(root & -> & Hwf & Hp)].
  { rewrite Hd in Hin. destruct Hin. }
  apply (Permutation_in _ (Permutation_sym Hp)) in Hin.
  destruct (self_search_dequeues maxDistance w f (node_count root) Hm root
              (Nat.le_refl _) Hwf Hin) as (node & Hdq & Hw & Hf).
  exists (candidate_of w node). split.
  - apply search_results. exists node. repeat split; trivial.
    rewrite Hw. unfold _sift3Distance. rewrite sift3_refl. assumption.
  - simpl. repeat split; trivial.
    rewrite Hw. unfold _sift3Distance. apply sift3_refl.
Qed.

Lemma dictionary_word_found_witness :
  let e := new_AutoCorrectEngine default_options sample_source in
  exists r,
    In r (_searchBKTree (bkTree e) "the" 2) /\
    cand_word r = "the" /\ cand_frequency r = 8%Q /\
    (cand_distance r == 0)%Q.
Proof.
  intros e.
  assert (Hin : In ("the", 8%Q) (dictionary e))
    by (vm_compute; left; reflexivity).
  assert (Hm : (0 <= 2)%Q) by (vm_compute; discriminate).
  exact (dictionary_word_found default_options sample_source "the" 8 2
           Hin Hm).
Defined.

(** X8. The search is not exhaustive: a tree built by insertion can hold a
    word within [maxDistance] of the query that the search does not return.
    With root ["ba"] and ["abaa"] inserted, the query ["baa"] is at distance
    3/2 from ["abaa"], which sits under key 3, outside [[1/2 - 2, 1/2 + 2]]. *)
Theorem search_not_exhaustive :
  ~ (forall (root : BKNode) (queryWord : string) (maxDistance : Q)
            (w : string) (f : Q),
       bk_wf root ->
       In (w, f) (tree_entries root) ->
       (_sift3Distance w queryWord <= maxDistance)%Q ->
       exists r,
         In r (_searchBKTree (Some root) queryWord maxDistance) /\
         cand_word r = w).
Proof.
  intros H.
  destruct (H (build_step (new_BKNode "ba" 1) ("abaa", 1%Q)) "baa" 2%Q
              "abaa" 1%Q) as (r & Hr & Hw).
  - unfold build_step. apply insert_bk_wf; [reflexivity|].
    apply bk_wf_intro. intros k c [].
  - vm_compute. right. left. reflexivity.
  - vm_compute. discriminate.
  - vm_compute in Hr. destruct Hr as [<-|[]]. discriminate Hw.
Qed.

(** ** The dictionary, continued *)

Lemma map_set_keys_In {V : Type} (k k' : string) (v : V)
    (m : list (string * V)) :
  In k' (map_keys (map_set String.eqb k v m)) <-> k' = k \/ In k' (map_keys m).
Proof.
  rewrite map_set_keys. destruct (map_has String.eqb k m) eqn:E.
  - apply map_has_keys in E. split; [now right|].
    intros [->|H]; assumption.
  - rewrite in_app_iff. simpl. intuition.
Qed.

Lemma map_get_set_other {V : Type} (k k' : string) (v : V)
    (m : list (string * V)) :
  k' <> k ->
  map_get String.eqb k' (map_set String.eqb k v m) = map_get String.eqb k' m.
Proof.
  intros Hne. induction m as [|[k1 v1] m IH]; simpl.
  - destruct (String.eqb_spec k k'); [congruence|reflexivity].
  - destruct (String.eqb_spec k1 k) as [->|H1]; simpl.
    + destruct (String.eqb_spec k k'); [congruence|reflexivity].
    + destruct (String.eqb_spec k1 k'); [reflexivity|apply IH].
Qed.

(** The words of the source that [loadDictionary] keeps. *)
Lemma ingest_keys maxFrequency popularWords w :
  forall index d,
    In w (map_keys (ingest maxFrequency popularWords index d)) <->
    In w (map_keys d) \/
    (In w popularWords /\ 1 < length w /\ test_a_z w = true).
Proof.
  induction popularWords as [|w0 ws IH]; intros index d; simpl.
  - intuition.
  - rewrite IH.
    destruct ((1 <? length w0) && test_a_z w0) eqn:E.
    + apply andb_true_iff in E. destruct E as [El Et].
      apply Nat.ltb_lt in El. rewrite map_set_keys_In.
      split.
      * intros [[->|H]|H]; [right|now left|right]; intuition.
      * intros [H|([->|H] & Hl & Ht)]; [left; now right|left; now left|].
        right. intuition.
    + split; [intuition|].
      intros [H|([->|H] & Hl & Ht)]; [now left| |right; intuition].
      apply Nat.ltb_lt in Hl. rewrite Hl, Ht in E. discriminate.
Qed.

Lemma boost_keys maxFrequency terms w :
  forall d,
    In w (map_keys (boost maxFrequency terms d)) <->
    In w (map_keys d) \/ In w terms.
Proof.
  unfold boost. induction terms as [|t ts IH]; intros d; simpl.
  - intuition.
  - rewrite IH, map_set_keys_In. intuition.
Qed.

Lemma ingest_get_other maxFrequency popularWords w :
  ~ In w popularWords ->
  forall index d,
    map_get String.eqb w (ingest maxFrequency popularWords index d)
    = map_get String.eqb w d.
Proof.
  induction popularWords as [|w0 ws IH]; intros Hw index d; simpl;
    [reflexivity|].
  rewrite IH by (intros H; apply Hw; now right).
  destruct ((1 <? length w0) && test_a_z w0); [|reflexivity].
  apply map_get_set_other. intros ->. apply Hw. now left.
Qed.

(** In a source without repetition the word of rank [i] that passes the
    filter is given the score [maxFrequency - (index + i)]. *)
Lemma ingest_get_nth maxFrequency popularWords :
  NoDup popularWords ->
  forall i index d,
    i < List.length popularWords ->
    1 < length (nth i popularWords "") ->
    test_a_z (nth i popularWords "") = true ->
    map_get String.eqb (nth i popularWords "")
      (ingest maxFrequency popularWords index d)
    = Some (maxFrequency - inject_Z (Z.of_nat (index + i)))%Q.
Proof.
  induction 1 as [|w0 ws Hw0 Hnd IH]; intros i index d Hi Hl Ht;
    simpl in Hi; [lia|].
  destruct i as [|i]; simpl in *.
  - apply Nat.ltb_lt in Hl. rewrite Hl, Ht. simpl.
    rewrite ingest_get_other by assumption.
    rewrite map_set_get. now rewrite Nat.add_0_r.
  - rewrite (IH i (S index)) by (trivial; lia).
    now rewrite Nat.add_succ_r.
Qed.

Lemma boost_get_other maxFrequency terms w :
  ~ In w terms ->
  forall d,
    map_get String.eqb w (boost maxFrequency terms d)
    = map_get String.eqb w d.
Proof.
  unfold boost. induction terms as [|t ts IH]; intros Hw d; simpl;
    [reflexivity|].
  rewrite IH by (intros H; apply Hw; now right).
  apply map_get_set_other. intros ->. apply Hw. now left.
Qed.

Lemma boost_get maxFrequency terms t :
  forall d,
    In t terms \/
    map_get String.eqb t d = Some (maxFrequency * (12 # 10))%Q ->
    map_get String.eqb t (boost maxFrequency terms d)
    = Some (maxFrequency * (12 # 10))%Q.
Proof.
  unfold boost. induction terms as [|t0 ts IH]; intros d H; simpl.
  - destruct H as [[]|H]. assumption.
  - apply IH. destruct (string_dec t t0) as [->|Hne].
    + right. apply map_set_get.
    + destruct H as [[H|H]|H]; [congruence|now left|].
      right. now rewrite map_get_set_other.
Qed.

Lemma new_engine_dictionary options getMostPopular popularWords :
  getMostPopular (dictionarySize (mk_config options))
    = Returned popularWords ->
  dictionary (new_AutoCorrectEngine options getMostPopular)
    = loaded_dictionary popularWords /\
  maxFrequency (new_AutoCorrectEngine options getMostPopular)
    = inject_Z (Z.of_nat (List.length popularWords)).
Proof.
  intros Hsrc.
  destruct (new_engine_returned _ _ _ Hsrc) as (w & f & it & _ & ->).
  now split.
Qed.

Lemma loaded_dictionary_keys popularWords w :
  In w (map_keys (loaded_dictionary popularWords)) <->
  (In w popularWords /\ 1 < length w /\ test_a_z w = true) \/
  In w technicalTerms.
Proof.
  unfold loaded_dictionary. rewrite boost_keys, ingest_keys.
  generalize (In w technicalTerms).
  generalize (In w popularWords /\ 1 < length w /\ test_a_z w = true).
  intros P T. change (In w (map_keys [])) with False. tauto.
Qed.

(** X9. After a load the keys of the dictionary are the words of the source
    that have at least two characters, all of them in [a-z], and the
    technical terms; nothing else. *)
Theorem dictionary_keys (options : Options)
    (getMostPopular : N -> SourceOutcome) (popularWords : list string)
    (w : string) :
  getMostPopular (dictionarySize (mk_config options))
    = Returned popularWords ->
  (map_has String.eqb w
     (dictionary (new_AutoCorrectEngine options getMostPopular)) = true <->
   (In w popularWords /\ 1 < length w /\ test_a_z w = true) \/
   In w technicalTerms).
Proof.
  intros Hsrc. destruct (new_engine_dictionary _ _ _ Hsrc) as [-> _].
  rewrite map_has_keys. apply loaded_dictionary_keys.
Qed.

Lemma dictionary_keys_witness :
  map_has String.eqb "Hello"
    (dictionary (new_AutoCorrectEngine default_options sample_source))
    = true <->
  (In "Hello" ["the"; "of"; "hello"; "help"; "Hello"; "x"; "held"; "shell"]
   /\ 1 < length "Hello" /\ test_a_z "Hello" = true) \/
  In "Hello" technicalTerms.
Proof.
  apply (dictionary_keys default_options sample_source
           ["the"; "of"; "hello"; "help"; "Hello"; "x"; "held"; "shell"]
           "Hello").
  reflexivity.
Defined.

(** X10. After a load every technical term has the score
    [1.2 * maxFrequency], whatever score the source gave it; and when the
    source has no repetition, any other word that was kept has the score
    [maxFrequency - i], [i] being its rank in the source. *)
Theorem dictionary_scores (options : Options)
    (getMostPopular : N -> SourceOutcome) (popularWords : list string) :
  getMostPopular (dictionarySize (mk_config options))
    = Returned popularWords ->
  let e := new_AutoCorrectEngine options getMostPopular in
  (forall term,
     In term technicalTerms ->
     map_get String.eqb term (dictionary e)
     = Some (maxFrequency e * (12 # 10))%Q) /\
  (NoDup popularWords ->
   forall i,
     i < List.length popularWords ->
     1 < length (nth i popularWords "") ->
     test_a_z (nth i popularWords "") = true ->
     ~ In (nth i popularWords "") technicalTerms ->
     map_get String.eqb (nth i popularWords "") (dictionary e)
     = Some (maxFrequency e - inject_Z (Z.of_nat i))%Q).
Proof.
  intros Hsrc e. subst e.
  destruct (new_engine_dictionary _ _ _ Hsrc) as [-> ->].
  unfold loaded_dictionary. split.
  - intros term Hterm. apply boost_get. now left.
  - intros Hnd i Hi Hl Ht Hterm.
    rewrite boost_get_other by assumption.
    now rewrite (ingest_get_nth _ _ Hnd i 0 []).
Qed.

Lemma dictionary_scores_witness :
  let e := new_AutoCorrectEngine default_options sample_source in
  (forall term,
     In term technicalTerms ->
     map_get String.eqb term (dictionary e)
     = Some (maxFrequency e * (12 # 10))%Q) /\
  (NoDup ["the"; "of"; "hello"; "help"; "Hello"; "x"; "held"; "shell"] ->
   forall i,
     i < List.length
           ["the"; "of"; "hello"; "help"; "Hello"; "x"; "held"; "shell"] ->
     1 < length (nth i ["the"; "of"; "hello"; "help"; "Hello"; "x"; "held";
                        "shell"] "") ->
     test_a_z (nth i ["the"; "of"; "hello"; "help"; "Hello"; "x"; "held";
                      "shell"] "") = true ->
     ~ In (nth i ["the"; "of"; "hello"; "help"; "Hello"; "x"; "held";
                  "shell"] "") technicalTerms ->
     map_get String.eqb
       (nth i ["the"; "of"; "hello"; "help"; "Hello"; "x"; "held"; "shell"]
          "") (dictionary e)
     = Some (maxFrequency e - inject_Z (Z.of_nat i))%Q).
Proof.
  apply (dictionary_scores default_options sample_source
           ["the"; "of"; "hello"; "help"; "Hello"; "x"; "held"; "shell"]).
  reflexivity.
Defined.

Lemma no_repetition_sound (l : list string) :
  no_repetition l = true -> NoDup l.
Proof.
  induction l as [|x l IH]; simpl; [constructor|].
  intros H. apply andb_true_iff in H. destruct H as [Hx Hl].
  constructor; [|now apply IH].
  intros Hin. apply negb_true_iff in Hx.
  assert (existsb (String.eqb x) l = true); [|congruence].
  apply existsb_exists. exists x. split; [assumption|apply String.eqb_refl].
Qed.

Lemma technicalTerms_NoDup : NoDup technicalTerms.
Proof. apply no_repetition_sound. vm_compute. reflexivity. Qed.

(** X11. After a load the dictionary holds at least the 33 technical terms
    and at most 33 entries more than the source gave words; this size is the
    word count of the [dictionary-loaded] signal. *)
Theorem dictionary_size (options : Options)
    (getMostPopular : N -> SourceOutcome) (popularWords : list string) :
  getMostPopular (dictionarySize (mk_config options))
    = Returned popularWords ->
  let e := new_AutoCorrectEngine options getMostPopular in
  33 <= List.length (dictionary e) <= List.length popularWords + 33 /\
  In (dictionary_loaded (List.length (dictionary e))) (emitted e).
Proof.
  intros Hsrc e. subst e.
  destruct (new_engine_returned _ _ _ Hsrc) as (w & f & it & _ & ->).
  fields.
  destruct (loaded_dictionary_inv popularWords) as (Hn & _).
  assert (Hlen : List.length (loaded_dictionary popularWords)
                 = List.length (map_keys (loaded_dictionary popularWords)))
    by (unfold map_keys; now rewrite length_map).
  split; [|left; reflexivity]. rewrite Hlen.
  assert (H33 : List.length technicalTerms = 33) by reflexivity.
  rewrite <- H33. split.
  - apply NoDup_incl_length; [apply technicalTerms_NoDup|].
    intros x Hx.
    exact (proj2 (loaded_dictionary_keys popularWords x) (or_intror Hx)).
  - rewrite <- length_app.
    apply NoDup_incl_length; [assumption|].
    intros x Hx. apply in_or_app.
    destruct (proj1 (loaded_dictionary_keys popularWords x) Hx)
      as [(Hx' & _)|Hx']; [left|right]; exact Hx'.
Qed.

Lemma dictionary_size_witness :
  let e := new_AutoCorrectEngine default_options sample_source in
  33 <= List.length (dictionary e)
     <= List.length
          ["the"; "of"; "hello"; "help"; "Hello"; "x"; "held"; "shell"] + 33 /\
  In (dictionary_loaded (List.length (dictionary e))) (emitted e).
Proof.
  exact (dictionary_size default_options sample_source
           ["the"; "of"; "hello"; "help"; "Hello"; "x"; "held"; "shell"]
           eq_refl).
Defined.

(** ** Queries, continued *)

Section MoreQueries.
Variable log1p : Q -> Q.

Lemma new_engine_config_cache options getMostPopular :
  config (new_AutoCorrectEngine options getMostPopular) = mk_config options /\
  cache (new_AutoCorrectEngine options getMostPopular) = [].
Proof.
  destruct (getMostPopular (dictionarySize (mk_config options)))
    as [popularWords|message] eqn:Hsrc.
  - destruct (new_engine_returned _ _ _ Hsrc) as (w & f & it & _ & ->).
    now split.
  - rewrite (new_engine_threw _ _ _ Hsrc). now split.
Qed.

Lemma run_config queries :
  forall e, config (run log1p e queries) = config e.
Proof.
  induction queries as [|word queries IH]; intros e; [reflexivity|].
  rewrite run_cons, IH. now destruct (getCorrections_static log1p word e).
Qed.

Lemma rankedResults_no_tree e lowerCaseWord :
  bkTree e = None -> rankedResults log1p e lowerCaseWord = [].
Proof. intros H. unfold rankedResults. rewrite H. reflexivity. Qed.

Lemma getCorrections_no_index word e :
  no_index e ->
  fst (getCorrections log1p word e) = [] /\
  no_index (snd (getCorrections log1p word e)).
Proof.
  intros (Hd & Ht & Hc).
  destruct (map_get String.eqb (toLowerCase word) (cache e)) as [v|] eqn:Hg.
  { rewrite (getCorrections_hit _ _ _ _ Hg). cbn [fst snd].
    apply map_get_In in Hg. split; [now apply (Hc _ _ Hg)|].
    now repeat split. }
  assert (Hh : map_has String.eqb (toLowerCase word) (dictionary e) = false)
    by (rewrite Hd; reflexivity).
  rewrite (getCorrections_miss _ _ _ Hg Hh). cbn [fst snd].
  rewrite (rankedResults_no_tree e _ Ht). split; [reflexivity|].
  unfold no_index. fields. repeat split; trivial.
  intros k v Hin. apply cache_store_In in Hin.
  destruct Hin as [Hin|[= _ ->]]; [now apply (Hc k v)|reflexivity].
Qed.

Lemma run_no_index queries :
  forall e, no_index e -> no_index (run log1p e queries).
Proof.
  induction queries as [|word queries IH]; intros e He; [assumption|].
  rewrite run_cons. apply IH. now apply getCorrections_no_index.
Qed.

(** X12. When the word source threw at construction, every query gets the
    empty array, whatever was asked before. *)
Theorem unavailable_source_no_suggestions (options : Options)
    (getMostPopular : N -> SourceOutcome) (message : string)
    (queries : list string) (word : string) :
  getMostPopular (dictionarySize (mk_config options)) = Threw message ->
  fst (getCorrections log1p word
         (run log1p (new_AutoCorrectEngine options getMostPopular) queries))
  = [].
Proof.
  intros Hsrc. apply getCorrections_no_index. apply run_no_index.
  rewrite (new_engine_threw _ _ _ Hsrc). unfold no_index. fields.
  repeat split. intros k v [].
Qed.

(** *** The distances of the suggestions *)

Lemma rankedResults_distances e lowerCaseWord r :
  In r (rankedResults log1p e lowerCaseWord) ->
  sug_distance r = _sift3Distance (sug_word r) lowerCaseWord /\
  (sug_distance r <= maxEditDistance (config e))%Q.
Proof.
  intros Hr. apply rankedResults_In in Hr. destruct Hr as (c & Hc & ->).
  cbn [rank sug_distance sug_word].
  destruct (bkTree e) as [root|]; [|destruct Hc].
  destruct (search_results_sound _ _ _ _ Hc) as (_ & Hd & Hle).
  now split.
Qed.

Lemma getCorrections_cache_distances word e :
  cache_distances e ->
  cache_distances (snd (getCorrections log1p word e)).
Proof.
  intros Hs.
  destruct (map_get String.eqb (toLowerCase word) (cache e)) as [v|] eqn:Hc.
  { now rewrite (getCorrections_hit _ _ _ _ Hc). }
  destruct (map_has String.eqb (toLowerCase word) (dictionary e)) eqn:Hd.
  { now rewrite (getCorrections_exact _ _ _ Hc Hd). }
  rewrite (getCorrections_miss _ _ _ Hc Hd). cbn [snd].
  unfold cache_distances. fields. intros k v Hin r Hr.
  apply cache_store_In in Hin. destruct Hin as [Hin|[= -> ->]].
  - now apply (Hs k v).
  - now apply rankedResults_distances.
Qed.

Lemma run_cache_distances queries :
  forall e, cache_distances e -> cache_distances (run log1p e queries).
Proof.
  induction queries as [|word queries IH]; intros e He; [assumption|].
  rewrite run_cons. apply IH. now apply getCorrections_cache_distances.
Qed.

Lemma reached_suggestion_distances (options : Options)
    (getMostPopular : N -> SourceOutcome) (queries : list string)
    (word : string) :
  let e := run log1p (new_AutoCorrectEngine options getMostPopular) queries in
  map_has String.eqb (toLowerCase word) (dictionary e) = false ->
  forall r,
    In r (fst (getCorrections log1p word e)) ->
    sug_distance r = _sift3Distance (sug_word r) (toLowerCase word) /\
    (0 < sug_distance r)%Q /\
    (sug_distance r <= maxEditDistance (config e))%Q.
Proof.
  intros e Hd r Hr.
  destruct (reachable_ok log1p options getMostPopular queries) as [Hi Hc].
  fold e in Hi, Hc.
  assert (Hcd : cache_distances e).
  { apply run_cache_distances.
    destruct (new_engine_config_cache options getMostPopular) as [_ Hn].
    intros k v Hin. rewrite Hn in Hin. destruct Hin. }
  assert (H : (sug_distance r
               = _sift3Distance (sug_word r) (toLowerCase word) /\
               (sug_distance r <= maxEditDistance (config e))%Q) /\
              In (sug_word r) (map_keys (dictionary e))).
  { destruct (map_get String.eqb (toLowerCase word) (cache e))
      as [v|] eqn:Hg.
    - rewrite (getCorrections_hit _ _ _ _ Hg) in Hr. cbn [fst] in Hr.
      apply map_get_In in Hg. split; [now apply (Hcd _ _ Hg)|].
      destruct (cache_values e Hc _ _ Hg) as [_ Hv]. now apply Hv.
    - rewrite (getCorrections_miss _ _ _ Hg Hd) in Hr. cbn [fst] in Hr.
      split; [now apply rankedResults_distances|].
      now apply (rankedResults_words log1p e (toLowerCase word)). }
  destruct H as [[Heq Hle] Hk]. repeat split; trivial.
  rewrite Heq.
  pose proof (sift3_nonneg 5 (sug_word r) (toLowerCase word)) as Hge.
  fold (_sift3Distance (sug_word r) (toLowerCase word)) in Hge.
  destruct (Qeq_dec (_sift3Distance (sug_word r) (toLowerCase word)) 0)
    as [Hz|Hnz].
  - apply (sift3_zero 5) in Hz. rewrite <- Hz in Hd.
    apply map_has_keys in Hk. congruence.
  - apply Qle_lteq in Hge. destruct Hge as [Hlt|Hq]; [assumption|].
    exfalso. apply Hnz. now symmetry.
Qed.

(** X13. For a query whose lower-case form is not a dictionary key, every
    returned record, computed now or taken from the cache, carries the
    distance from its word to the lower-case query, and that distance is
    positive and at most [maxEditDistance]. *)
Theorem suggestion_distances (options : Options)
    (getMostPopular : N -> SourceOutcome) (queries : list string)
    (word : string) :
  let e := run log1p (new_AutoCorrectEngine options getMostPopular) queries in
  map_has String.eqb (toLowerCase word) (dictionary e) = false ->
  forall r,
    In r (fst (getCorrections log1p word e)) ->
    sug_distance r = _sift3Distance (sug_word r) (toLowerCase word) /\
    (0 < sug_distance r)%Q /\
    (sug_distance r <= maxEditDistance (config e))%Q.
Proof.
  exact (reached_suggestion_distances options getMostPopular queries word).
Qed.

(** *** The keys of the cache *)

Lemma map_delete_keys_incl {V : Type} (k x : string)
    (m : list (string * V)) :
  In x (map_keys (map_delete String.eqb k m)) -> In x (map_keys m).
Proof.
  unfold map_keys. intros H. apply in_map_iff in H.
  destruct H as (e & <- & He). apply in_map. now apply (map_delete_In k).
Qed.

Lemma map_delete_keys_NoDup {V : Type} (k : string) (m : list (string * V)) :
  NoDup (map_keys m) -> NoDup (map_keys (map_delete String.eqb k m)).
Proof.
  induction m as [|[k' v'] m IH]; simpl; [trivial|].
  intros H. apply NoDup_cons_iff in H. destruct H as [Hk Hn].
  destruct (String.eqb k' k); [assumption|].
  cbn [map_keys map fst]. constructor; [|now apply IH].
  intros Hin. apply Hk. now apply (map_delete_keys_incl k).
Qed.

Lemma evict_oldest_keys cacheSize cache :
  NoDup (map_keys cache) ->
  NoDup (map_keys (evict_oldest cacheSize cache)) /\
  forall x, In x (map_keys (evict_oldest cacheSize cache)) ->
            In x (map_keys cache).
Proof.
  intros Hn. unfold evict_oldest.
  destruct (cacheSize <=? List.length cache); [|now split].
  destruct (map_first_key cache) as [k|]; [|now split].
  split; [now apply map_delete_keys_NoDup|].
  intros x. apply map_delete_keys_incl.
Qed.

Lemma cache_store_keys cacheSize key value cache :
  map_get String.eqb key cache = None ->
  map_keys (cache_store cacheSize key value cache)
  = map_keys (evict_oldest cacheSize cache) ++ [key].
Proof.
  intros Hg. unfold cache_store.
  rewrite map_set_absent by now apply evict_oldest_get_None.
  unfold map_keys. now rewrite map_app.
Qed.

Lemma getCorrections_keys word e :
  NoDup (map_keys (cache e)) ->
  NoDup (map_keys (cache (snd (getCorrections log1p word e)))) /\
  forall k, In k (map_keys (cache (snd (getCorrections log1p word e)))) ->
            In k (map_keys (cache e)) \/ k = toLowerCase word.
Proof.
  intros Hn.
  destruct (map_get String.eqb (toLowerCase word) (cache e)) as [v|] eqn:Hc.
  { rewrite (getCorrections_hit _ _ _ _ Hc). cbn [snd].
    split; [assumption|]. intros k Hk. now left. }
  destruct (map_has String.eqb (toLowerCase word) (dictionary e)) eqn:Hd.
  { rewrite (getCorrections_exact _ _ _ Hc Hd). cbn [snd].
    split; [assumption|]. intros k Hk. now left. }
  rewrite (getCorrections_miss _ _ _ Hc Hd). cbn [snd]. fields.
  rewrite (cache_store_keys _ _ _ _ Hc).
  destruct (evict_oldest_keys (cacheSize (config e)) (cache e) Hn)
    as [Hne Hincl].
  split.
  - apply NoDup_app; [assumption|constructor; [tauto|constructor]|].
    intros x Hx [<-|[]]. apply Hincl in Hx. apply map_has_keys in Hx.
    unfold map_has in Hx. now rewrite Hc in Hx.
  - intros k Hk. apply in_app_or in Hk.
    destruct Hk as [Hk|[<-|[]]]; [left; now apply Hincl|now right].
Qed.

Lemma run_keys queries :
  forall e,
    NoDup (map_keys (cache e)) ->
    NoDup (map_keys (cache (run log1p e queries))) /\
    forall k, In k (map_keys (cache (run log1p e queries))) ->
              In k (map_keys (cache e)) \/
              exists word, In word queries /\ k = toLowerCase word.
Proof.
  induction queries as [|word queries IH]; intros e Hn.
  - split; [assumption|]. intros k Hk. now left.
  - rewrite run_cons.
    destruct (getCorrections_keys word e Hn) as [Hn' Hk'].
    destruct (IH _ Hn') as [Hn'' Hk'']. split; [assumption|].
    intros k Hk. destruct (Hk'' k Hk) as [H|(w & Hw & ->)].
    + destruct (Hk' k H) as [H'| ->]; [now left|].
      right. exists word. split; [now left|reflexivity].
    + right. exists w. split; [now right|reflexivity].
Qed.

(** X14. In every engine that construction and queries lead to, the keys of
    the cache are pairwise distinct, each is the lower-case form of a query
    made so far, and none is a dictionary key. *)
Theorem cache_keys_of_queries (options : Options)
    (getMostPopular : N -> SourceOutcome) (queries : list string) :
  let e := run log1p (new_AutoCorrectEngine options getMostPopular) queries in
  NoDup (map_keys (cache e)) /\
  forall k,
    In k (map_keys (cache e)) ->
    (exists word, In word queries /\ k = toLowerCase word) /\
    map_has String.eqb k (dictionary e) = false.
Proof.
  intros e.
  destruct (new_engine_config_cache options getMostPopular) as [_ Hn].
  destruct (run_keys queries
              (new_AutoCorrectEngine options getMostPopular)) as [Hnd Hk].
  { rewrite Hn. constructor. }
  fold e in Hnd, Hk. split; [assumption|].
  intros k Hin. split.
  - destruct (Hk k Hin) as [H|H]; [|assumption].
    rewrite Hn in H. destruct H.
  - destruct (reachable_ok log1p options getMostPopular queries) as [_ Hc].
    fold e in Hc. unfold map_keys in Hin. apply in_map_iff in Hin.
    destruct Hin as ([k' v] & <- & Hin). now apply (cache_keys e Hc k' v).
Qed.

(** X15. With a capacity of at least one entry the cache never holds more
    than [cacheSize] entries, whatever the queries. *)
Theorem cache_within_capacity (options : Options)
    (getMostPopular : N -> SourceOutcome) (queries : list string) :
  1 <= cacheSize (mk_config options) ->
  List.length
    (cache (run log1p (new_AutoCorrectEngine options getMostPopular)
              queries))
  <= cacheSize (mk_config options).
Proof.
  intros Hpos.
  destruct (new_engine_config_cache options getMostPopular) as [Hcfg Hn].
  rewrite <- Hcfg. apply run_cache_bound; rewrite Hcfg; [assumption|].
  rewrite Hn. simpl. lia.
Qed.

(** *** The five best *)

Hypothesis log1p_at_zero : forall x : Q, (x == 0)%Q -> (log1p x == 0)%Q.
Hypothesis log1p_positive : forall x : Q, (0 < x)%Q -> (0 < log1p x)%Q.

Lemma sorted_app_rel (l1 l2 : list Suggestion) :
  non_increasing (l1 ++ l2) ->
  forall x y, In x l1 -> In y l2 -> no_increase x y.
Proof.
  unfold non_increasing. induction l1 as [|a l1 IH]; simpl; intros H x y Hx Hy;
    [destruct Hx|].
  apply StronglySorted_inv in H. destruct H as [Hs Ha].
  destruct Hx as [<-|Hx].
  - apply (proj1 (Forall_forall _ _) Ha). apply in_or_app. now right.
  - now apply IH.
Qed.

(** The whole array of ranked candidates is in order after the sort. *)
Lemma ranked_candidates_sorted e lowerCaseWord :
  index_ok e ->
  non_increasing
    (js_sort by_confidence
       (map (rank log1p (maxFrequency e) lowerCaseWord)
          (_searchBKTree (bkTree e) lowerCaseWord
             (maxEditDistance (config e))))).
Proof.
  intros Hok. destruct (scores_ok e Hok) as [Hpos|[Hz Hall]].
  - apply js_sort_sorted_finite.
    apply Forall_forall. intros r Hr. apply in_map_iff in Hr.
    destruct Hr as (c & <- & Hc).
    apply (rank_finite log1p log1p_positive); [assumption|].
    apply (candidate_in_dictionary e lowerCaseWord c Hok) in Hc.
    pose proof (proj1 (Forall_forall _ _) (keys_a_z e Hok) _ Hc) as Ht.
    now apply test_a_z_sound in Ht.
  - apply all_NaN_sorted. apply Forall_forall. intros r Hr.
    apply js_sort_In in Hr. apply in_map_iff in Hr.
    destruct Hr as (c & <- & Hc).
    apply (rank_NaN log1p log1p_at_zero); [assumption|].
    apply (candidate_in_dictionary e lowerCaseWord c Hok) in Hc.
    exact (proj1 (Forall_forall _ _) Hall _ Hc).
Qed.

(** X16. On a miss the call returns as many records as the search gave
    candidates, up to five, and they are the best: a candidate that is not
    returned has no greater confidence than any record that is. *)
Theorem five_best_candidates (options : Options)
    (getMostPopular : N -> SourceOutcome) (queries : list string)
    (word : string) :
  let e := run log1p (new_AutoCorrectEngine options getMostPopular) queries in
  let candidates :=
    _searchBKTree (bkTree e) (toLowerCase word)
      (maxEditDistance (config e)) in
  map_get String.eqb (toLowerCase word) (cache e) = None ->
  map_has String.eqb (toLowerCase word) (dictionary e) = false ->
  List.length (fst (getCorrections log1p word e))
  = Nat.min 5 (List.length candidates) /\
  forall candidate r,
    In candidate candidates ->
    In r (fst (getCorrections log1p word e)) ->
    In (rank log1p (maxFrequency e) (toLowerCase word) candidate)
       (fst (getCorrections log1p word e)) \/
    no_increase r (rank log1p (maxFrequency e) (toLowerCase word) candidate).
Proof.
  intros e candidates Hg Hd.
  destruct (reachable_ok log1p options getMostPopular queries) as [Hi _].
  fold e in Hi.
  rewrite (getCorrections_miss _ _ _ Hg Hd). cbn [fst].
  unfold rankedResults. fold candidates.
  set (sorted := js_sort by_confidence
                   (map (rank log1p (maxFrequency e) (toLowerCase word))
                      candidates)).
  split.
  - rewrite length_firstn. unfold sorted.
    now rewrite js_sort_length, length_map.
  - intros c r Hc Hr.
    assert (Hin : In (rank log1p (maxFrequency e) (toLowerCase word) c)
                     sorted).
    { apply js_sort_In. now apply in_map. }
    rewrite <- (firstn_skipn 5 sorted) in Hin. apply in_app_or in Hin.
    destruct Hin as [Hin|Hin]; [now left|right].
    apply (sorted_app_rel (firstn 5 sorted) (skipn 5 sorted)); trivial.
    rewrite firstn_skipn. apply ranked_candidates_sorted. exact Hi.
Qed.

End MoreQueries.

(** ** Instances of the further properties *)

Lemma unavailable_source_no_suggestions_witness :
  fst (getCorrections log1p_approx "teh"
         (run log1p_approx
            (new_AutoCorrectEngine default_options failing_source)
            ["helo"; "teh"]))
  = [].
Proof.
  exact (unavailable_source_no_suggestions log1p_approx default_options
           failing_source "word source unavailable" ["helo"; "teh"] "teh"
           eq_refl).
Defined.

Lemma suggestion_distances_witness :
  let e := run log1p_approx
             (new_AutoCorrectEngine default_options sample_source)
             ["helo"] in
  Forall
    (fun r =>
       sug_distance r = _sift3Distance (sug_word r) (toLowerCase "Shel") /\
       (0 < sug_distance r)%Q /\
       (sug_distance r <= maxEditDistance (config e))%Q)
    (fst (getCorrections log1p_approx "Shel" e)).
Proof.
  intros e.
  assert (Hd : map_has String.eqb (toLowerCase "Shel") (dictionary e)
               = false) by (vm_compute; reflexivity).
  apply Forall_forall.
  exact (suggestion_distances log1p_approx default_options sample_source
           ["helo"] "Shel" Hd).
Defined.

Lemma cache_within_capacity_witness :
  List.length
    (cache (run log1p_approx
              (new_AutoCorrectEngine (mkOptions None None (Some 2))
                 sample_source)
              ["helo"; "shel"; "teh"; "hlep"]))
  <= cacheSize (mk_config (mkOptions None None (Some 2))).
Proof.
  apply (cache_within_capacity log1p_approx (mkOptions None None (Some 2))
           sample_source ["helo"; "shel"; "teh"; "hlep"]).
  simpl. lia.
Defined.

Lemma five_best_candidates_witness :
  let e := run log1p_approx
             (new_AutoCorrectEngine default_options sample_source)
             ["helo"] in
  let candidates :=
    _searchBKTree (bkTree e) (toLowerCase "Shel")
      (maxEditDistance (config e)) in
  List.length (fst (getCorrections log1p_approx "Shel" e))
  = Nat.min 5 (List.length candidates) /\
  forall candidate r,
    In candidate candidates ->
    In r (fst (getCorrections log1p_approx "Shel" e)) ->
    In (rank log1p_approx (maxFrequency e) (toLowerCase "Shel") candidate)
       (fst (getCorrections log1p_approx "Shel" e)) \/
    no_increase r
      (rank log1p_approx (maxFrequency e) (toLowerCase "Shel") candidate).
Proof.
  intros e candidates.
  assert (Hg : map_get String.eqb (toLowerCase "Shel") (cache e) = None)
    by (vm_compute; reflexivity).
  assert (Hd : map_has String.eqb (toLowerCase "Shel") (dictionary e)
               = false) by (vm_compute; reflexivity).
  exact (five_best_candidates log1p_approx log1p_approx_zero
           log1p_approx_pos default_options sample_source ["helo"] "Shel"
           Hg Hd).
Defined.

(** ** No word twice *)

Lemma filter_split_perm {A : Type} (f : A -> bool) (l : list A) :
  Permutation (filter f l ++ filter (fun x => negb (f x)) l) l.
Proof.
  induction l as [|a l IH]; simpl; [constructor|].
  destruct (f a); simpl.
  - now apply perm_skip.
  - rewrite <- Permutation_middle. now apply perm_skip.
Qed.

Lemma flat_map_perm {A B : Type} (g : A -> list B) (l l' : list A) :
  Permutation l l' -> Permutation (flat_map g l) (flat_map g l').
Proof.
  induction 1 as [|x l l' Hp IH|x y l|l l' l'' H1 IH1 H2 IH2]; simpl.
  - constructor.
  - now apply Permutation_app_head.
  - rewrite !app_assoc. apply Permutation_app_tail. apply Permutation_app_comm.
  - now transitivity (flat_map g l').
Qed.

Lemma tree_words_eq node :
  tree_words node
  = word node :: flat_map (fun kc => tree_words (snd kc)) (children node).
Proof.
  unfold tree_words at 1. rewrite tree_entries_eq. cbn [map fst]. f_equal.
  unfold children_entries. induction (children node) as [|[k c] ch IH];
    simpl; [reflexivity|]. rewrite map_app, IH. reflexivity.
Qed.

Lemma queue_words_map_snd (ch : list (Q * BKNode)) :
  queue_words (map snd ch) = flat_map (fun kc => tree_words (snd kc)) ch.
Proof. unfold queue_words. now rewrite flat_map_concat_map, map_map,
  <- flat_map_concat_map. Qed.

(** The words of the records that the loop returns are, up to order, among
    the words of the records so far and of the trees in the queue, each taken
    at most as often as it occurs there. *)
Lemma queue_words_app q1 q2 :
  queue_words (q1 ++ q2) = queue_words q1 ++ queue_words q2.
Proof. unfold queue_words. apply flat_map_app. Qed.

Lemma search_loop_words queryWord maxDistance candidates results :
  exists rest,
    Permutation
      (map cand_word (search_loop queryWord maxDistance candidates results)
       ++ rest)
      (map cand_word results ++ queue_words candidates).
Proof.
  funelim (search_loop queryWord maxDistance candidates results).
  - exists []. reflexivity.
  - match goal with IH : exists rest, Permutation _ _ |- _ =>
      destruct IH as (rest' & Hp) end.
    clear Heqcall.
    set (keep := in_range
                   (_sift3Distance (word node) queryWord - maxDistance)
                   (_sift3Distance (word node) queryWord + maxDistance))
      in *.
    set (dropped := queue_words
                      (map snd (filter (fun x => negb (keep x))
                                  (children node)))).
    assert (Hch : Permutation
                    (queue_words (map snd (filter keep (children node)))
                     ++ dropped)
                    (flat_map (fun kc => tree_words (snd kc))
                       (children node))).
    { unfold dropped. rewrite !queue_words_map_snd.
      rewrite <- flat_map_app. apply flat_map_perm. apply filter_split_perm. }
    rewrite queue_words_app in Hp.
    change (queue_words (node :: rest))
      with (tree_words node ++ queue_words rest).
    rewrite tree_words_eq.
    revert Hp Hch.
    generalize (flat_map (fun kc : Q * BKNode => tree_words (snd kc))
                  (children node)).
    generalize (queue_words (map snd (filter keep (children node)))).
    generalize (queue_words rest). generalize dropped.
    generalize (search_loop queryWord maxDistance
                  (rest ++ map snd (filter keep (children node)))).
    intros loop D A K C.
    destruct (Qle_bool (_sift3Distance (word node) queryWord) maxDistance);
      intros Hp Hch.
    + exists (rest' ++ D). rewrite <- Hch. rewrite app_assoc, Hp.
      rewrite map_app. cbn [map cand_word].
      rewrite <- !app_assoc. apply Permutation_app_head. cbn [app].
      apply perm_skip. apply (Permutation_app_comm A (K ++ D)).
    + exists (rest' ++ word node :: D). rewrite <- Hch.
      rewrite app_assoc, Hp.
      rewrite <- !app_assoc. apply Permutation_app_head. cbn [app].
      transitivity (word node :: A ++ K ++ D).
      * rewrite (app_assoc A K (word node :: D)), (app_assoc A K D).
        symmetry. apply Permutation_middle.
      * apply perm_skip. apply (Permutation_app_comm A (K ++ D)).
Qed.

Lemma search_words_NoDup root queryWord maxDistance :
  NoDup (tree_words root) ->
  NoDup (map cand_word (_searchBKTree (Some root) queryWord maxDistance)).
Proof.
  intros Hn. unfold _searchBKTree.
  destruct (search_loop_words queryWord maxDistance [root] [])
    as (rest & Hp).
  cbn [map app queue_words flat_map] in Hp. rewrite app_nil_r in Hp.
  apply (NoDup_app_remove_r _ rest).
  apply (Permutation_NoDup (Permutation_sym Hp)). exact Hn.
Qed.

Lemma sort_insert_perm {A : Type} (compare : A -> A -> jsnum) (a : A) l :
  Permutation (sort_insert compare a l) (a :: l).
Proof.
  induction l as [|b l IH]; cbn [sort_insert]; [reflexivity|].
  destruct (js_lt (Fin 0) (compare a b)); [|reflexivity].
  rewrite IH. apply perm_swap.
Qed.

(** The sort returns the elements it was given, each as often. *)
Lemma js_sort_perm {A : Type} (compare : A -> A -> jsnum) (l : list A) :
  Permutation (js_sort compare l) l.
Proof.
  induction l as [|a l IH]; cbn [js_sort fold_right]; [constructor|].
  fold (js_sort compare l). rewrite sort_insert_perm. now apply perm_skip.
Qed.

Lemma firstn_NoDup {A : Type} (n : nat) (l : list A) :
  NoDup l -> NoDup (firstn n l).
Proof.
  intros H. rewrite <- (firstn_skipn n l) in H.
  now apply NoDup_app_remove_r in H.
Qed.

Lemma new_engine_tree_distinct options getMostPopular :
  tree_distinct (new_AutoCorrectEngine options getMostPopular).
Proof.
  intros root Ht.
  destruct (new_engine_tree options getMostPopular)
    as [[_ Hnone]|(root' & Hsome & _ & Hp)]; [congruence|].
  rewrite Hsome in Ht. injection Ht as ->.
  unfold tree_words.
  apply (Permutation_NoDup (Permutation_map fst (Permutation_sym Hp))).
  exact (keys_NoDup _ (new_engine_index_ok options getMostPopular)).
Qed.

Section Distinct.
Variable log1p : Q -> Q.

Lemma rankedResults_distinct e lowerCaseWord :
  tree_distinct e ->
  NoDup (map sug_word (rankedResults log1p e lowerCaseWord)).
Proof.
  intros Ht. unfold rankedResults. rewrite <- firstn_map.
  apply firstn_NoDup.
  apply (Permutation_NoDup
           (Permutation_map sug_word
              (Permutation_sym (js_sort_perm by_confidence _)))).
  rewrite map_map. cbn [rank sug_word].
  destruct (bkTree e) as [root|] eqn:Hr; [|constructor].
  apply search_words_NoDup. now apply Ht.
Qed.

Lemma getCorrections_distinct word e :
  tree_distinct e -> cache_distinct e ->
  NoDup (map sug_word (fst (getCorrections log1p word e))) /\
  tree_distinct (snd (getCorrections log1p word e)) /\
  cache_distinct (snd (getCorrections log1p word e)).
Proof.
  intros Ht Hc.
  destruct (map_get String.eqb (toLowerCase word) (cache e)) as [v|] eqn:Hg.
  { rewrite (getCorrections_hit _ _ _ _ Hg). cbn [fst snd].
    apply map_get_In in Hg. split; [now apply (Hc _ _ Hg)|now split]. }
  destruct (map_has String.eqb (toLowerCase word) (dictionary e)) eqn:Hd.
  { rewrite (getCorrections_exact _ _ _ Hg Hd). cbn [fst snd].
    split; [|now split]. repeat constructor. intros []. }
  rewrite (getCorrections_miss _ _ _ Hg Hd). cbn [fst snd].
  split; [now apply rankedResults_distinct|]. split.
  - exact Ht.
  - unfold cache_distinct. fields. intros k v Hin.
    apply cache_store_In in Hin. destruct Hin as [Hin|[= -> ->]].
    + now apply (Hc k v).
    + now apply rankedResults_distinct.
Qed.

Lemma run_distinct queries :
  forall e, tree_distinct e -> cache_distinct e ->
            tree_distinct (run log1p e queries) /\
            cache_distinct (run log1p e queries).
Proof.
  induction queries as [|word queries IH]; intros e Ht Hc; [now split|].
  rewrite run_cons.
  destruct (getCorrections_distinct word e Ht Hc) as (_ & Ht' & Hc').
  now apply IH.
Qed.

(** X17. No call returns the same word twice: in every array that
    [getCorrections] returns the words of the records are pairwise
    distinct. *)
Theorem suggestions_distinct (options : Options)
    (getMostPopular : N -> SourceOutcome) (queries : list string)
    (word : string) :
  NoDup
    (map sug_word
       (fst (getCorrections log1p word
               (run log1p (new_AutoCorrectEngine options getMostPopular)
                  queries)))).
Proof.
  destruct (run_distinct queries
              (new_AutoCorrectEngine options getMostPopular)) as [Ht Hc].
  - apply new_engine_tree_distinct.
  - intros k v Hin.
    destruct (getMostPopular (dictionarySize (mk_config options)))
      as [popularWords|message] eqn:Hsrc.
    + destruct (new_engine_returned _ _ _ Hsrc) as (w & f & it & _ & E).
      rewrite E in Hin. destruct Hin.
    + rewrite (new_engine_threw _ _ _ Hsrc) in Hin. destruct Hin.
  - now apply getCorrections_distinct.
Qed.

End Distinct.
